(** * The racing sitemap fetcher

    A shallow embedding of [fetchSitemapTextRaced] and its helpers
    ([isLikelySitemapXml], [linkAbortSignals], [fetchTextWithTimeout]).

    Conventions of the embedding.
    - A JavaScript string is a [string]; each character stands for the
      UTF-16 code unit with the same number (code units below 256).
    - A duration in milliseconds is a [Z] (finite, integer valued numbers).
    - [fetch] is the environment: what it answers, and when, is an input of
      the model ([FetchOutcome], delivered by the event [FetchSettles]).
    - The event loop is explicit: promise reactions are jobs in a FIFO
      queue, run one at a time by the event [Tick]; timers, the external
      abort signal and network completions are the other events. *)

From Stdlib Require Import ZArith String Ascii List DecimalString Lia Bool.
From stdpp Require Import base option list strings.
Import ListNotations.

Local Open Scope string_scope.

(** ** Text primitives *)

Module JsString.

Definition code (c : ascii) : nat := nat_of_ascii c.

(** [\s] and the characters removed by [String.prototype.trim]: TAB, LF,
    VT, FF, CR, SPACE and NO-BREAK SPACE. *)
Definition isWhiteSpace (c : ascii) : bool :=
  let n := code c in
  (n =? 9)%nat || (n =? 10)%nat || (n =? 11)%nat || (n =? 12)%nat
  || (n =? 13)%nat || (n =? 32)%nat || (n =? 160)%nat.

Definition isUpper (c : ascii) : bool := ((65 <=? code c) && (code c <=? 90))%nat.
Definition isLower (c : ascii) : bool := ((97 <=? code c) && (code c <=? 122))%nat.
Definition isDigit (c : ascii) : bool := ((48 <=? code c) && (code c <=? 57))%nat.

(** [[A-Za-z_]] *)
Definition isNameStart (c : ascii) : bool :=
  isUpper c || isLower c || (code c =? 95)%nat.

(** [\w] *)
Definition isWordChar (c : ascii) : bool := isNameStart c || isDigit c.

(** [[\w.-]] *)
Definition isNameChar (c : ascii) : bool :=
  isWordChar c || (code c =? 46)%nat || (code c =? 45)%nat.

(** Case folding of the [i] flag: only the ASCII letters fold. *)
Definition foldCase (c : ascii) : ascii :=
  if isUpper c then ascii_of_nat (code c + 32) else c.

Fixpoint dropWhile (p : ascii -> bool) (s : string) : string :=
  match s with
  | EmptyString => EmptyString
  | String c rest => if p c then dropWhile p rest else s
  end.

(** Matches the literal [pat] at the start of [s], ignoring case, and
    returns what follows it. *)
Fixpoint stripPrefixCI (pat s : string) : option string :=
  match pat with
  | EmptyString => Some s
  | String p pat' =>
      match s with
      | EmptyString => None
      | String c s' =>
          if Ascii.eqb (foldCase p) (foldCase c) then stripPrefixCI pat' s' else None
      end
  end.

(** [/pat/i.test(s)] for a literal [pat]. *)
Fixpoint containsCI (pat s : string) : bool :=
  match stripPrefixCI pat s with
  | Some _ => true
  | None =>
      match s with
      | EmptyString => false
      | String _ s' => containsCI pat s'
      end
  end.

(** [\b] after a word character: end of input or a non-word character. *)
Definition atWordBoundary (s : string) : bool :=
  match s with
  | EmptyString => true
  | String c _ => negb (isWordChar c)
  end.

(** [(urlset|sitemapindex)\b] at the start of [s]. *)
Definition matchRootName (s : string) : bool :=
  match stripPrefixCI "urlset" s with
  | Some rest => atWordBoundary rest
  | None => false
  end
  || match stripPrefixCI "sitemapindex" s with
     | Some rest => atWordBoundary rest
     | None => false
     end.

(** [(?:[A-Za-z_][\w.-]*:)?(urlset|sitemapindex)\b] at the start of [s].
    The star is greedy and the colon is no name character, so the prefix
    has one way to match. *)
Definition matchQualifiedRoot (s : string) : bool :=
  matchRootName s
  || match s with
     | EmptyString => false
     | String c rest =>
         if isNameStart c then
           match dropWhile isNameChar rest with
           | String ":" rest' => matchRootName rest'
           | _ => false
           end
         else false
     end.

(** The part of the pattern after the [<]. *)
Definition matchAfterLt (s : string) : bool :=
  matchQualifiedRoot (dropWhile isWhiteSpace s).

Definition trimStart (s : string) : string := dropWhile isWhiteSpace s.

(** [s.trim()] *)
Definition trim (s : string) : string :=
  String.rev (trimStart (String.rev (trimStart s))).

Fixpoint join (sep : string) (l : list string) : string :=
  match l with
  | [] => EmptyString
  | [x] => x
  | x :: rest => x ++ sep ++ join sep rest
  end.

(** A number inside a template literal. *)
Definition showZ (z : Z) : string := NilZero.string_of_int (Z.to_int z).

(** [Math.round(ms / 1000)] *)
Definition roundSeconds (ms : Z) : Z := ((ms + 500) / 1000)%Z.

End JsString.

Import JsString.

(** [/<\s*(?:[A-Za-z_][\w.-]*:)?(urlset|sitemapindex)\b/i.test(text)] *)
Fixpoint isLikelySitemapXml (text : string) : bool :=
  match text with
  | EmptyString => false
  | String c rest =>
      (if Ascii.eqb c "<" then matchAfterLt rest else false)
      || isLikelySitemapXml rest
  end.

(** [/aborted|abort/i.test(msg)] *)
Definition isAbortMessage (msg : string) : bool :=
  containsCI "aborted" msg || containsCI "abort" msg.

(** ** Configuration and timeouts *)

(** An [AbortSignal] as the caller hands it over: has it fired already? *)
Record AbortSignal := { aborted : bool }.

Record FetchSitemapTextConfig := {
  perStrategyTimeoutMs : option Z;
  overallTimeoutMs : option Z;
  signal : option AbortSignal
}.

(** [Math.max(4000, config.perStrategyTimeoutMs ?? 12000)] *)
Definition effectivePerStrategyTimeoutMs (config : FetchSitemapTextConfig) : Z :=
  Z.max 4000 (default 12000%Z (perStrategyTimeoutMs config)).

(** [Math.max(perStrategyTimeoutMs, config.overallTimeoutMs ?? 15000)] *)
Definition effectiveOverallTimeoutMs (config : FetchSitemapTextConfig) : Z :=
  Z.max (effectivePerStrategyTimeoutMs config)
        (default 15000%Z (overallTimeoutMs config)).

(** ** One timed request: [fetchTextWithTimeout] *)

(** What [fetch] answers: a rejection, or a response whose body read
    ([res.text()]) yields text or rejects. *)
Record Response := { ok : bool; status : Z; body : string + string }.

Inductive FetchOutcome :=
| FetchRejects (msg : string)
| FetchResponds (res : Response).

(** How a promise of text settles. *)
Inductive Outcome :=
| Text (text : string)
| Failure (msg : string).

Definition timeoutMessage (timeoutMs : Z) : string :=
  "timeout after " ++ showZ (roundSeconds timeoutMs) ++ "s".

(** The [try] block of [fetchTextWithTimeout]. *)
Definition attempt (o : FetchOutcome) : Outcome :=
  match o with
  | FetchRejects msg => Failure msg
  | FetchResponds res =>
      if ok res then
        match body res with
        | inl text => Text text
        | inr msg => Failure msg
        end
      else Failure ("HTTP " ++ showZ (status res))
  end.

(** The settlement of [fetchTextWithTimeout(url, init, timeoutMs, signal)],
    given what [fetch] answered: the [catch] block rewrites every message
    that mentions an abort and rethrows the others. *)
Definition fetchTextWithTimeout (timeoutMs : Z) (o : FetchOutcome) : Outcome :=
  match attempt o with
  | Text text => Text text
  | Failure msg =>
      if isAbortMessage msg then Failure (timeoutMessage timeoutMs)
      else Failure msg
  end.

(** ** The race *)

(** One entry of the [strategies] array.  [run] calls
    [fetchTextWithTimeout] with the deadline [timeoutMs] and hands the text
    to [finish]; the request itself (URL, method, headers) goes to [fetch]
    and plays no part here. *)
Record Strategy := {
  name : string;
  timeoutMs : Z;
  finish : string -> string
}.

(** [{ name, text }] *)
Record StrategyResult := { winner : string; text : string }.

Inductive Promise (A : Type) :=
| Pending
| Fulfilled (a : A)
| Rejected (msg : string).
Arguments Pending {A}.
Arguments Fulfilled {A} a.
Arguments Rejected {A} msg.

(** A [window.setTimeout] handle. *)
Inductive Timer :=
| Unset
| Armed (delayMs : Z)
| Fired
| Cleared.

(** [window.clearTimeout] *)
Definition clearTimeout (t : Timer) : Timer :=
  match t with
  | Armed _ => Cleared
  | _ => t
  end.

(** Where one strategy stands in the chain
    [Promise.resolve().then(run).then(onText).catch(onError)]. *)
Inductive Phase :=
| Queued                 (* [run] not called yet *)
| InFlight               (* inside [fetchTextWithTimeout] *)
| Settled (o : Outcome)  (* [run]'s promise settled, reaction queued *)
| Threw (msg : string)   (* rejection on its way to [catch] *)
| Handled.               (* chain finished *)

(** The locals of one call of [fetchTextWithTimeout]. *)
Record Invocation := {
  phase : Phase;
  timer : Timer;               (* [timeoutId] *)
  controllerAborted : bool;    (* [controller.signal.aborted] *)
  linked : bool                (* listener on [raceAbort.signal] installed *)
}.

Inductive Job :=
| JLaunch (i : nat)   (* [() => s.run(raceAbort.signal)] *)
| JReact (i : nat)    (* next reaction of strategy [i]'s chain *)
| JFinally.           (* continuation of [await Promise.race(...)] *)

(** What the code does to the outside, in order. *)
Inductive Action :=
| ANewRaceAbort
| ALinkExternal
| ASetTimeout (owner : option nat) (delayMs : Z)  (* [None]: the overall timer *)
| AClearTimeout (owner : option nat)
| AListenExternal
| ARun (strategy : string) (deadlineMs : Z)
| AAbortRace
| AResolve (r : StrategyResult)
| ARejectRunner (msg : string)
| ARejectOverall (msg : string)
| ALog (msg : string)
| AUnlinkExternal.

(** The variables of one call of [fetchSitemapTextRaced]. *)
Record Race := mkRace {
  strategies : list Strategy;
  overallMs : Z;                        (* [overallTimeoutMs] *)
  extSignal : option bool;              (* [config.signal], and [.aborted] *)
  extLinked : bool;                     (* [unlinkExternal] still has a listener to remove *)
  raceAborted : bool;                   (* [raceAbort.signal.aborted] *)
  invs : list Invocation;
  errors : list string;
  done : bool;
  completed : nat;
  runnerP : Promise StrategyResult;     (* [runner()] *)
  overallP : Promise Empty_set;         (* [overallTimeout] *)
  raceP : Promise StrategyResult;       (* [Promise.race([runner(), overallTimeout])] *)
  returned : Promise string;            (* the promise the caller holds *)
  overallTimer : Timer;
  jobs : list Job;
  trace : list Action
}.

Definition set_extSignal (v : option bool) (s : Race) : Race :=
  let 'mkRace a b c d e f g h i j k l m n o p := s in mkRace a b v d e f g h i j k l m n o p.
Definition set_extLinked (v : bool) (s : Race) : Race :=
  let 'mkRace a b c d e f g h i j k l m n o p := s in mkRace a b c v e f g h i j k l m n o p.
Definition set_raceAborted (v : bool) (s : Race) : Race :=
  let 'mkRace a b c d e f g h i j k l m n o p := s in mkRace a b c d v f g h i j k l m n o p.
Definition set_invs (v : list Invocation) (s : Race) : Race :=
  let 'mkRace a b c d e f g h i j k l m n o p := s in mkRace a b c d e v g h i j k l m n o p.
Definition set_errors (v : list string) (s : Race) : Race :=
  let 'mkRace a b c d e f g h i j k l m n o p := s in mkRace a b c d e f v h i j k l m n o p.
Definition set_done (v : bool) (s : Race) : Race :=
  let 'mkRace a b c d e f g h i j k l m n o p := s in mkRace a b c d e f g v i j k l m n o p.
Definition set_completed (v : nat) (s : Race) : Race :=
  let 'mkRace a b c d e f g h i j k l m n o p := s in mkRace a b c d e f g h v j k l m n o p.
Definition set_runnerP (v : Promise StrategyResult) (s : Race) : Race :=
  let 'mkRace a b c d e f g h i j k l m n o p := s in mkRace a b c d e f g h i v k l m n o p.
Definition set_overallP (v : Promise Empty_set) (s : Race) : Race :=
  let 'mkRace a b c d e f g h i j k l m n o p := s in mkRace a b c d e f g h i j v l m n o p.
Definition set_raceP (v : Promise StrategyResult) (s : Race) : Race :=
  let 'mkRace a b c d e f g h i j k l m n o p := s in mkRace a b c d e f g h i j k v m n o p.
Definition set_returned (v : Promise string) (s : Race) : Race :=
  let 'mkRace a b c d e f g h i j k l m n o p := s in mkRace a b c d e f g h i j k l v n o p.
Definition set_overallTimer (v : Timer) (s : Race) : Race :=
  let 'mkRace a b c d e f g h i j k l m n o p := s in mkRace a b c d e f g h i j k l m v o p.
Definition set_jobs (v : list Job) (s : Race) : Race :=
  let 'mkRace a b c d e f g h i j k l m n o p := s in mkRace a b c d e f g h i j k l m n v p.
Definition set_trace (v : list Action) (s : Race) : Race :=
  let 'mkRace a b c d e f g h i j k l m n o p := s in mkRace a b c d e f g h i j k l m n o v.

Definition set_inv (i : nat) (v : Invocation) (s : Race) : Race :=
  set_invs (<[i := v]> (invs s)) s.
Definition enqueue (j : Job) (s : Race) : Race := set_jobs (jobs s ++ [j]) s.
Definition log (a : Action) (s : Race) : Race := set_trace (trace s ++ [a]) s.

Definition with_phase (p : Phase) (v : Invocation) : Invocation :=
  {| phase := p; timer := timer v;
     controllerAborted := controllerAborted v; linked := linked v |}.

Definition set_phase (i : nat) (p : Phase) (s : Race) : Race :=
  set_invs (alter (with_phase p) i (invs s)) s.

(** Statements run top to bottom: [s |> f |> g] is [f] then [g]. *)
Local Notation "s |> f" := (f s) (at level 45, left associativity, only parsing).

(** *** Promises *)

(** The first of [runner()] and [overallTimeout] to settle settles the race
    and queues the continuation of the [await]. *)
Definition settleRace (p : Promise StrategyResult) (s : Race) : Race :=
  match raceP s with
  | Pending => s |> set_raceP p |> enqueue JFinally
  | _ => s
  end.

(** [resolve({ name: s.name, text })] *)
Definition resolveRunner (r : StrategyResult) (s : Race) : Race :=
  let s := log (AResolve r) s in
  match runnerP s with
  | Pending => s |> set_runnerP (Fulfilled r) |> settleRace (Fulfilled r)
  | _ => s
  end.

(** [reject(new Error(msg))] inside [runner] *)
Definition rejectRunner (msg : string) (s : Race) : Race :=
  let s := log (ARejectRunner msg) s in
  match runnerP s with
  | Pending => s |> set_runnerP (Rejected msg) |> settleRace (Rejected msg)
  | _ => s
  end.

(** [reject(new Error(msg))] inside [overallTimeout] *)
Definition rejectOverall (msg : string) (s : Race) : Race :=
  let s := log (ARejectOverall msg) s in
  match overallP s with
  | Pending => s |> set_overallP (Rejected msg) |> settleRace (Rejected msg)
  | _ => s
  end.

(** *** Cancellation *)

(** The listener [() => to.abort()] that [linkAbortSignals] installed for
    one request. *)
Definition abortLinked (v : Invocation) : Invocation :=
  if linked v then
    {| phase := phase v; timer := timer v;
       controllerAborted := true; linked := false |}
  else v.

(** [raceAbort.abort()]: the first call marks the signal and runs the
    listeners synchronously, later calls do nothing. *)
Definition abortRace (s : Race) : Race :=
  let s := log AAbortRace s in
  if raceAborted s then s
  else s |> set_raceAborted true |> set_invs (abortLinked <$> invs s).

(** *** The coordinator: [runner] *)

Definition allFailedMessage (errs : list string) : string :=
  "All strategies failed: " ++ join " | " errs.

Definition finishRejectIfAllFailed (s : Race) : Race :=
  if negb (done s) && (length (strategies s) <=? completed s)%nat
  then rejectRunner (allFailedMessage (errors s)) s
  else s.

(** [.then((text) => { ... })] of strategy [i] *)
Definition thenCallback (i : nat) (st : Strategy) (text : string) (s : Race) : Race :=
  if done s then set_phase i Handled s
  else if negb (isLikelySitemapXml text) then
    s |> set_phase i (Threw "not sitemap XML") |> enqueue (JReact i)
  else
    s |> set_done true
      |> abortRace
      |> resolveRunner {| winner := name st; text := text |}
      |> set_phase i Handled.

(** [.catch((e) => { ... })] of strategy [i] *)
Definition catchCallback (i : nat) (st : Strategy) (msg : string) (s : Race) : Race :=
  s |> set_errors (errors s ++ [name st ++ ": " ++ msg])
    |> (fun s => set_completed (S (completed s)) s)
    |> finishRejectIfAllFailed
    |> set_phase i Handled.

(** [s.run(raceAbort.signal)]: the synchronous start of
    [fetchTextWithTimeout], up to [await fetch(...)]. *)
Definition launch (i : nat) (st : Strategy) (s : Race) : Race :=
  s |> log (ARun (name st) (timeoutMs st))
    |> set_inv i {| phase := InFlight;
                    timer := Armed (timeoutMs st);
                    controllerAborted := raceAborted s;
                    linked := negb (raceAborted s) |}
    |> log (ASetTimeout (Some i) (timeoutMs st)).

(** What [run]'s promise settles with when [fetch] answers [o]. *)
Definition runOutcome (st : Strategy) (o : FetchOutcome) : Outcome :=
  match fetchTextWithTimeout (timeoutMs st) o with
  | Text t => Text (finish st t)
  | Failure msg => Failure msg
  end.

(** [fetch] answers request [i]: the [finally] block clears the timer and
    unlinks, [run]'s promise settles and its reaction is queued. *)
Definition settle (i : nat) (st : Strategy) (v : Invocation) (o : FetchOutcome)
    (s : Race) : Race :=
  s |> set_inv i {| phase := Settled (runOutcome st o);
                    timer := clearTimeout (timer v);
                    controllerAborted := controllerAborted v;
                    linked := false |}
    |> log (AClearTimeout (Some i))
    |> enqueue (JReact i).

(** *** The event loop *)

Definition logLine (r : StrategyResult) : string :=
  "[Sitemap] " ++ winner r ++ " succeeded first".

Definition runJob (j : Job) (s : Race) : option Race :=
  match j with
  | JLaunch i =>
      st ← strategies s !! i;
      v ← invs s !! i;
      match phase v with
      | Queued => Some (launch i st s)
      | _ => None
      end
  | JReact i =>
      st ← strategies s !! i;
      v ← invs s !! i;
      match phase v with
      | Settled (Text t) => Some (thenCallback i st t s)
      | Settled (Failure msg) =>
          (* [.then] has no rejection handler: the rejection moves on *)
          Some (s |> set_phase i (Threw msg) |> enqueue (JReact i))
      | Threw msg => Some (catchCallback i st msg s)
      | _ => None
      end
  | JFinally =>
      match returned s, raceP s with
      | Pending, Fulfilled r =>
          Some (s |> log (ALog (logLine r))
                  |> log AUnlinkExternal |> set_extLinked false
                  |> set_returned (Fulfilled (text r)))
      | Pending, Rejected msg =>
          Some (s |> log AUnlinkExternal |> set_extLinked false
                  |> set_returned (Rejected msg))
      | _, _ => None
      end
  end.

Inductive Event :=
| Tick                                    (* run the next queued job *)
| FetchSettles (i : nat) (o : FetchOutcome)
| StrategyTimer (i : nat)                 (* [() => controller.abort()] *)
| OverallTimer
| ExternalAbort.                          (* [config.signal] fires *)

Definition overallTimeoutMessage (ms : Z) : string :=
  "All strategies timed out after " ++ showZ (roundSeconds ms) ++ "s".

(** One turn of the loop; [None] when the event cannot happen in [s].
    Timer callbacks are tasks: they run when no job is queued. *)
Definition step (s : Race) (e : Event) : option Race :=
  match e with
  | Tick =>
      match jobs s with
      | [] => None
      | j :: rest => runJob j (set_jobs rest s)
      end
  | FetchSettles i o =>
      st ← strategies s !! i;
      v ← invs s !! i;
      match phase v with
      | InFlight => Some (settle i st v o s)
      | _ => None
      end
  | StrategyTimer i =>
      v ← invs s !! i;
      match timer v, jobs s with
      | Armed _, [] =>
          Some (set_inv i {| phase := phase v; timer := Fired;
                             controllerAborted := true; linked := linked v |} s)
      | _, _ => None
      end
  | OverallTimer =>
      match overallTimer s, jobs s with
      | Armed _, [] =>
          Some (s |> set_overallTimer Fired
                  |> abortRace
                  |> rejectOverall (overallTimeoutMessage (overallMs s)))
      | _, _ => None
      end
  | ExternalAbort =>
      match extSignal s with
      | Some false =>
          Some (s |> set_extSignal (Some true)
                  (* first listener: the link to [raceAbort] *)
                  |> (fun s => if extLinked s
                               then s |> abortRace |> set_extLinked false
                               else s)
                  (* second listener: the one of [overallTimeout] *)
                  |> log (AClearTimeout None)
                  |> (fun s => set_overallTimer (clearTimeout (overallTimer s)) s)
                  |> rejectOverall "Cancelled")
      | _ => None
      end
  end.

Fixpoint run (s : Race) (evs : list Event) : option Race :=
  match evs with
  | [] => Some s
  | e :: evs' =>
      match step s e with
      | Some s' => run s' evs'
      | None => None
      end
  end.

(** ** [fetchSitemapTextRaced] up to its [await] *)

Section Start.

(** [adaptJinaMarkdownToSitemapXml] is imported from another module; it
    returns adapted text, or nothing. *)
Variable adaptJinaMarkdownToSitemapXml : string -> string -> option string.

Definition buildStrategies (trimmed : string) (perStrategyTimeoutMs : Z)
    : list Strategy :=
  [ {| name := "API";
       timeoutMs := Z.min 25000 (Z.max perStrategyTimeoutMs 12000);
       finish := fun text => text |};
    {| name := "Direct";
       timeoutMs := 8000;
       finish := fun text => text |};
    {| name := "AllOrigins";
       timeoutMs := perStrategyTimeoutMs;
       finish := fun text => text |};
    {| name := "Jina";
       timeoutMs := perStrategyTimeoutMs;
       finish := fun text =>
         default text (adaptJinaMarkdownToSitemapXml text trimmed) |} ].

(** The outcome of the synchronous part: an exception, with what had been
    done before it, or a race under way. *)
Inductive Start :=
| Throws (before : list Action) (msg : string)
| Races (s : Race).

Definition fetchSitemapTextRaced (targetUrl : string)
    (config : FetchSitemapTextConfig) : Start :=
  let trimmed := trim targetUrl in
  if String.eqb trimmed EmptyString then Throws [] "URL is required"
  else
    let perStrategy := effectivePerStrategyTimeoutMs config in
    let overall := effectiveOverallTimeoutMs config in
    (* [linkAbortSignals(config.signal, raceAbort)] *)
    let preAborted :=
      match signal config with
      | Some sig => aborted sig
      | None => false
      end in
    let linkedNow :=
      match signal config with
      | Some sig => negb (aborted sig)
      | None => false
      end in
    let wiring := [ANewRaceAbort; ALinkExternal] in
    let strategies := buildStrategies trimmed perStrategy in
    if (length strategies =? 0)%nat
    then Throws wiring "No fetch strategies available"
    else
      Races {|
        strategies := strategies;
        overallMs := overall;
        extSignal := aborted <$> signal config;
        extLinked := linkedNow;
        raceAborted := preAborted;
        invs := (fun _ => {| phase := Queued; timer := Unset;
                              controllerAborted := false;
                              linked := false |}) <$> strategies;
        errors := [];
        done := false;
        completed := 0;
        runnerP := Pending;
        overallP := Pending;
        raceP := Pending;
        returned := Pending;
        overallTimer := Armed overall;
        jobs := JLaunch <$> seq 0 (length strategies);
        trace := wiring
                 ++ (if preAborted then [AAbortRace] else [])
                 ++ [ASetTimeout None overall]
                 ++ match signal config with
                    | Some _ => [AListenExternal]
                    | None => []
                    end
      |}.

(** What a call has done by the time it throws or suspends. *)
Definition effects (r : Start) : list Action :=
  match r with
  | Throws before _ => before
  | Races s => trace s
  end.

(** The states a call can go through. *)
Definition reachable (s : Race) : Prop :=
  exists targetUrl config s0 evs,
    fetchSitemapTextRaced targetUrl config = Races s0 /\ run s0 evs = Some s.

End Start.

(** ** Views of a state used in the statements *)

(** The names of the strategies started so far, oldest first. *)
Fixpoint launches (tr : list Action) : list string :=
  match tr with
  | [] => []
  | ARun n _ :: rest => n :: launches rest
  | _ :: rest => launches rest
  end.

(** How often [resolve] was called. *)
Fixpoint resolves (tr : list Action) : nat :=
  match tr with
  | [] => 0
  | AResolve _ :: rest => S (resolves rest)
  | _ :: rest => resolves rest
  end.

Definition phases (s : Race) : list Phase := phase <$> invs s.

Definition strategyNames : list string := ["API"; "Direct"; "AllOrigins"; "Jina"].

(** ** The transitions, one constructor per path through [step] *)

Inductive Step : Race -> Event -> Race -> Prop :=
| StepLaunch s i rest st v :
    jobs s = JLaunch i :: rest ->
    strategies s !! i = Some st -> invs s !! i = Some v -> phase v = Queued ->
    Step s Tick (launch i st (set_jobs rest s))
| StepLate s i rest st v t :
    jobs s = JReact i :: rest ->
    strategies s !! i = Some st -> invs s !! i = Some v ->
    phase v = Settled (Text t) -> done s = true ->
    Step s Tick (set_phase i Handled (set_jobs rest s))
| StepInvalid s i rest st v t :
    jobs s = JReact i :: rest ->
    strategies s !! i = Some st -> invs s !! i = Some v ->
    phase v = Settled (Text t) -> done s = false ->
    isLikelySitemapXml t = false ->
    Step s Tick (enqueue (JReact i)
                   (set_phase i (Threw "not sitemap XML") (set_jobs rest s)))
| StepWin s i rest st v t :
    jobs s = JReact i :: rest ->
    strategies s !! i = Some st -> invs s !! i = Some v ->
    phase v = Settled (Text t) -> done s = false ->
    isLikelySitemapXml t = true ->
    Step s Tick
      (set_phase i Handled
         (resolveRunner {| winner := name st; text := t |}
            (abortRace (set_done true (set_jobs rest s)))))
| StepPass s i rest st v msg :
    jobs s = JReact i :: rest ->
    strategies s !! i = Some st -> invs s !! i = Some v ->
    phase v = Settled (Failure msg) ->
    Step s Tick (enqueue (JReact i) (set_phase i (Threw msg) (set_jobs rest s)))
| StepCatch s i rest st v msg :
    jobs s = JReact i :: rest ->
    strategies s !! i = Some st -> invs s !! i = Some v ->
    phase v = Threw msg ->
    Step s Tick (catchCallback i st msg (set_jobs rest s))
| StepReturn s rest r :
    jobs s = JFinally :: rest ->
    returned s = Pending -> raceP s = Fulfilled r ->
    Step s Tick
      (set_returned (Fulfilled (text r))
         (set_extLinked false
            (log AUnlinkExternal (log (ALog (logLine r)) (set_jobs rest s)))))
| StepRethrow s rest msg :
    jobs s = JFinally :: rest ->
    returned s = Pending -> raceP s = Rejected msg ->
    Step s Tick
      (set_returned (Rejected msg)
         (set_extLinked false (log AUnlinkExternal (set_jobs rest s))))
| StepSettle s i st v o :
    strategies s !! i = Some st -> invs s !! i = Some v -> phase v = InFlight ->
    Step s (FetchSettles i o) (settle i st v o s)
| StepDeadline s i v d :
    invs s !! i = Some v -> timer v = Armed d -> jobs s = [] ->
    Step s (StrategyTimer i)
      (set_inv i {| phase := phase v; timer := Fired;
                    controllerAborted := true; linked := linked v |} s)
| StepOverall s d :
    overallTimer s = Armed d -> jobs s = [] ->
    Step s OverallTimer
      (rejectOverall (overallTimeoutMessage (overallMs s))
         (abortRace (set_overallTimer Fired s)))
| StepCancel s :
    extSignal s = Some false ->
    Step s ExternalAbort
      (rejectOverall "Cancelled"
         ((fun s => set_overallTimer (clearTimeout (overallTimer s)) s)
            (log (AClearTimeout None)
               ((fun s => if extLinked s
                          then set_extLinked false (abortRace s) else s)
                  (set_extSignal (Some true) s))))).

(** ** Settling a promise, as a function of its state *)

Definition isPending {A : Type} (p : Promise A) : bool :=
  match p with
  | Pending => true
  | _ => false
  end.

(** A settled promise ignores every later [resolve] and [reject]. *)
Definition settleWith {A : Type} (p v : Promise A) : Promise A :=
  if isPending p then v else p.

(** The jobs queued when an inner promise of the race settles. *)
Definition continuation (fresh : bool) (race : Promise StrategyResult) : list Job :=
  if fresh && isPending race then [JFinally] else [].

Definition raceAfter (fresh : bool) (race v : Promise StrategyResult)
    : Promise StrategyResult :=
  if fresh then settleWith race v else race.

(** ** Invariants of the race *)

Fixpoint pendingCount (ps : list Phase) : nat :=
  match ps with
  | [] => 0
  | Handled :: rest => pendingCount rest
  | _ :: rest => S (pendingCount rest)
  end.

Definition reacting (p : Phase) : bool :=
  match p with
  | Settled _ | Threw _ => true
  | _ => false
  end.

(** [done] and [completed] decide how [runner()] stands. *)
Definition runnerConsistent (s : Race) : Prop :=
  match runnerP s with
  | Pending => done s = false /\ completed s < length (strategies s)
  | Fulfilled _ => done s = true
  | Rejected msg =>
      done s = false /\ length (strategies s) <= completed s
      /\ msg = allFailedMessage (errors s)
  end.

Record Counting (s : Race) : Prop := {
  cnt_len : length (invs s) = length (strategies s);
  cnt_errors : completed s = length (errors s);
  cnt_bound :
    completed s + pendingCount (phases s) + (if done s then 1 else 0)
    <= length (strategies s);
  cnt_runner : runnerConsistent s;
  cnt_resolves : resolves (trace s) = if done s then 1 else 0
}.

(** Every queued job has work to do, and is queued once. *)
Record Queueing (s : Race) : Prop := {
  q_nodup : NoDup (jobs s);
  q_react : forall i,
    JReact i ∈ jobs s <-> reacting <$> (phases s !! i) = Some true;
  q_launch : forall i, JLaunch i ∈ jobs s -> phases s !! i = Some Queued;
  q_finally : JFinally ∈ jobs s <-> (returned s = Pending /\ raceP s <> Pending)
}.

(** [Promise.race] took the first settlement; the caller sees it. *)
Record Outer (s : Race) : Prop := {
  o_race :
    match raceP s with
    | Pending => runnerP s = Pending /\ overallP s = Pending
    | Fulfilled r => runnerP s = Fulfilled r
    | Rejected msg => runnerP s = Rejected msg \/ overallP s = Rejected msg
    end;
  o_runner : overallP s = Pending -> raceP s = runnerP s;
  o_overall :
    match overallP s with
    | Rejected msg => msg = "Cancelled" \/ msg = overallTimeoutMessage (overallMs s)
    | _ => True
    end;
  o_timer :
    match overallP s with
    | Pending => True
    | _ => forall d, overallTimer s <> Armed d
    end;
  o_returned :
    match returned s with
    | Pending => True
    | Fulfilled t => exists r, raceP s = Fulfilled r /\ t = text r
    | Rejected msg => raceP s = Rejected msg
    end
}.

Fixpoint launchJobs (js : list Job) : list nat :=
  match js with
  | [] => []
  | JLaunch i :: rest => i :: launchJobs rest
  | _ :: rest => launchJobs rest
  end.

(** Strategies start in the order of the array. *)
Definition launchOrder (s : Race) : Prop :=
  let k := length (launches (trace s)) in
  launchJobs (jobs s) = seq k (length (strategies s) - k)
  /\ launches (trace s) = take k (name <$> strategies s).

Record Inv (s : Race) : Prop := {
  inv_counting : Counting s;
  inv_queueing : Queueing s;
  inv_outer : Outer s;
  inv_launch : launchOrder s
}.

(** ** Who wins, and what is reported *)

Definition validText (p : Phase) : option string :=
  match p with
  | Settled (Text t) => if isLikelySitemapXml t then Some t else None
  | _ => None
  end.

(** The first queued reaction that carries text passing the gate. *)
Fixpoint firstValid (strats : list Strategy) (ps : list Phase) (js : list Job)
    : option StrategyResult :=
  match js with
  | [] => None
  | JReact i :: rest =>
      match ps !! i ≫= validText, strats !! i with
      | Some t, Some st => Some {| winner := name st; text := t |}
      | _, _ => firstValid strats ps rest
      end
  | _ :: rest => firstValid strats ps rest
  end.

(** The winner of the race, as far as it is decided in [s]. *)
Definition winnerOf (s : Race) : option StrategyResult :=
  match runnerP s with
  | Fulfilled r => Some r
  | _ => firstValid (strategies s) (phases s) (jobs s)
  end.

Definition validOutcome (st : Strategy) (o : FetchOutcome) : option StrategyResult :=
  match runOutcome st o with
  | Text t =>
      if isLikelySitemapXml t then Some {| winner := name st; text := t |}
      else None
  | Failure _ => None
  end.

(** The first strategy in [evs] to settle with text passing the gate. *)
Fixpoint firstValidSettle (strats : list Strategy) (evs : list Event)
    : option StrategyResult :=
  match evs with
  | [] => None
  | FetchSettles i o :: rest =>
      match strats !! i ≫= (fun st => validOutcome st o) with
      | Some r => Some r
      | None => firstValidSettle strats rest
      end
  | _ :: rest => firstValidSettle strats rest
  end.

(** The reason recorded for a strategy that does not win. *)
Definition reasonOf (o : Outcome) : string :=
  match o with
  | Text _ => "not sitemap XML"
  | Failure msg => msg
  end.

Definition entry (st : Strategy) (reason : string) : string :=
  name st ++ ": " ++ reason.



(** Entries on their way to [errors]: rejections about to reach [catch]... *)
Fixpoint queuedThrown (strats : list Strategy) (ps : list Phase) (js : list Job)
    : list string :=
  match js with
  | [] => []
  | JReact i :: rest =>
      match ps !! i, strats !! i with
      | Some (Threw msg), Some st => entry st msg :: queuedThrown strats ps rest
      | _, _ => queuedThrown strats ps rest
      end
  | _ :: rest => queuedThrown strats ps rest
  end.

(** ... and settlements whose first reaction has not run yet. *)
Fixpoint queuedSettled (strats : list Strategy) (ps : list Phase) (js : list Job)
    : list string :=
  match js with
  | [] => []
  | JReact i :: rest =>
      match ps !! i, strats !! i with
      | Some (Settled o), Some st =>
          entry st (reasonOf o) :: queuedSettled strats ps rest
      | _, _ => queuedSettled strats ps rest
      end
  | _ :: rest => queuedSettled strats ps rest
  end.

Definition foreseen (s : Race) : list string :=
  errors s
  ++ queuedThrown (strategies s) (phases s) (jobs s)
  ++ queuedSettled (strategies s) (phases s) (jobs s).

(** A bound on the jobs still to run before the queue is empty. *)
Definition jobWeight (ps : list Phase) (j : Job) : nat :=
  match j with
  | JReact i =>
      match ps !! i with
      | Some (Settled _) => 2
      | _ => 1
      end
  | _ => 1
  end.

Definition backlog (s : Race) : nat :=
  list_sum (map (jobWeight (phases s)) (jobs s))
  + match raceP s with
    | Pending => 1
    | _ => 0
    end.


(** ** Auxiliary views for the proofs *)

Definition weight (p : Phase) : nat :=
  match p with
  | Handled => 0
  | _ => 1
  end.

(** The condition of [finishRejectIfAllFailed]. *)
Definition allFailed (s : Race) : bool :=
  negb (done s) && (length (strategies s) <=? completed s)%nat.

(** What an event adds to the candidates for the win... *)
Definition settleResult (s : Race) (e : Event) : option StrategyResult :=
  match e with
  | FetchSettles i o => strategies s !! i ≫= (fun st => validOutcome st o)
  | _ => None
  end.



(** The timer of a request is armed only while the request is in flight,
    and with the deadline of its strategy. *)
Definition TimersOwned (s : Race) : Prop :=
  forall j w d, invs s !! j = Some w -> timer w = Armed d ->
    phase w = InFlight
    /\ forall st, strategies s !! j = Some st -> d = timeoutMs st.

(** ** The two patterns, read as sets of strings *)

(** The letters of [s] folded as the [i] flag folds them. *)
Fixpoint lower (s : string) : string :=
  match s with
  | EmptyString => EmptyString
  | String c rest => String (foldCase c) (lower rest)
  end.

(** The longest prefix of [s] whose characters satisfy [p]. *)
Fixpoint takeWhile (p : ascii -> bool) (s : string) : string :=
  match s with
  | EmptyString => EmptyString
  | String c rest => if p c then String c (takeWhile p rest) else EmptyString
  end.

(** [[A-Za-z_][\w.-]*:] *)
Definition isQualifier (q : string) : Prop :=
  exists c nm, q = String c nm ++ ":" /\ isNameStart c = true
               /\ forallb isNameChar (list_ascii_of_string nm) = true.

(** [(urlset|sitemapindex)] under the [i] flag *)
Definition isRootName (r : string) : Prop :=
  lower r = "urlset" \/ lower r = "sitemapindex".

(** The texts in which
    [/<\s*(?:[A-Za-z_][\w.-]*:)?(urlset|sitemapindex)\b/i] finds a match:
    anything, then [<], white space, an optional qualifier, the root name,
    and a word boundary. *)
Definition HasSitemapRoot (text : string) : Prop :=
  exists pre ws q r rest,
    text = pre ++ "<" ++ ws ++ q ++ r ++ rest
    /\ forallb isWhiteSpace (list_ascii_of_string ws) = true
    /\ (q = EmptyString \/ isQualifier q)
    /\ isRootName r
    /\ atWordBoundary rest = true.

(** No letter [a], in either case. *)
Definition notA (c : ascii) : bool := negb (Ascii.eqb (foldCase c) "a").

(** ** What a request and a call hold *)

Definition timerFired (t : Timer) : bool :=
  match t with
  | Fired => true
  | _ => false
  end.

(** The timer, the controller and the link of a request, by the phase of
    its strategy. *)
Definition Lifecycle (s : Race) : Prop :=
  forall j w, invs s !! j = Some w ->
    match phase w with
    | Queued => timer w = Unset /\ linked w = false /\ controllerAborted w = false
    | InFlight =>
        (timer w = Fired \/ exists d, timer w = Armed d)
        /\ linked w = negb (raceAborted s)
        /\ controllerAborted w = raceAborted s || timerFired (timer w)
    | _ => (timer w = Cleared \/ timer w = Fired) /\ linked w = false
    end.

(** The lines written with [console.log], oldest first. *)
Fixpoint logged (tr : list Action) : list string :=
  match tr with
  | [] => []
  | ALog m :: rest => m :: logged rest
  | _ :: rest => logged rest
  end.

(** The messages [reject] of [runner] was called with. *)
Fixpoint rejections (tr : list Action) : list string :=
  match tr with
  | [] => []
  | ARejectRunner m :: rest => m :: rejections rest
  | _ :: rest => rejections rest
  end.

(** How often [unlinkExternal] was called. *)
Fixpoint unlinks (tr : list Action) : nat :=
  match tr with
  | [] => 0
  | AUnlinkExternal :: rest => S (unlinks rest)
  | _ :: rest => unlinks rest
  end.

(** The link to the caller's signal, the overall timer and the trace, as
    the promises of the call determine them. *)
Record Wiring (s : Race) : Prop := {
  w_link :
    extLinked s = match extSignal s, returned s with
                  | Some false, Pending => true
                  | _, _ => false
                  end;
  w_unlinks : unlinks (trace s) = if isPending (returned s) then 0 else 1;
  w_timer : overallP s = Pending -> overallTimer s = Armed (overallMs s);
  w_logged :
    logged (trace s) = match returned s, raceP s with
                       | Fulfilled _, Fulfilled r => [logLine r]
                       | _, _ => []
                       end;
  w_rejections :
    rejections (trace s) = match runnerP s with
                           | Rejected m => [m]
                           | _ => []
                           end
}.

(** What the state of the overall timer says about [overallTimeout]. *)
Definition TimerTells (s : Race) : Prop :=
  match overallTimer s with
  | Unset => False
  | Armed d => d = overallMs s /\ overallP s = Pending
  | Fired => overallP s = Rejected (overallTimeoutMessage (overallMs s))
  | Cleared => overallP s = Rejected "Cancelled"
  end.

(** ** Sample inputs *)

Module Sample.

Definition adapt : string -> string -> option string := fun _ _ => None.

Definition target : string := "https://example.com/sitemap.xml".

Definition defaults : FetchSitemapTextConfig :=
  {| perStrategyTimeoutMs := None; overallTimeoutMs := None; signal := None |}.

Definition cancellable : FetchSitemapTextConfig :=
  {| perStrategyTimeoutMs := None; overallTimeoutMs := None;
     signal := Some {| aborted := false |} |}.


Definition sitemap : string := "<urlset></urlset>".

Definition answers (t : string) : FetchOutcome :=
  FetchResponds {| ok := true; status := 200; body := inl t |}.

Definition abortError : FetchOutcome := FetchRejects "The operation was aborted.".

(** The state after [evs], for a call that starts a race. *)
Definition after (config : FetchSitemapTextConfig) (evs : list Event) : option Race :=
  match fetchSitemapTextRaced adapt target config with
  | Races s0 => run s0 evs
  | Throws _ _ => None
  end.

Definition launchAll : list Event := [Tick; Tick; Tick; Tick].


Definition fired : FetchSitemapTextConfig :=
  {| perStrategyTimeoutMs := None; overallTimeoutMs := None;
     signal := Some {| aborted := true |} |}.

Definition fails (msg : string) : FetchOutcome := FetchRejects msg.

Definition blank : Race :=
  mkRace [] 0 None false false [] [] false 0 Pending Pending Pending Pending
         Unset [] [].

(** The state after [evs]; [blank] when [evs] cannot happen. *)
Definition stateAfter (config : FetchSitemapTextConfig) (evs : list Event) : Race :=
  default blank (after config evs).



End Sample.

Import Sample.

Local Close Scope string_scope.

(** * Properties *)

(** Opens a state into its variables, named like the fields. *)
Ltac open_race s :=
  destruct s as [strategies overallMs extSignal extLinked raceAborted invs
                 errors done completed runnerP overallP raceP returned
                 overallTimer jobs trace].

(** ** The step relation and normal forms *)

Lemma step_Step s e s' : step s e = Some s' -> Step s e s'.
Proof.
  destruct e; simpl; intros H.
  - destruct (jobs s) as [|j rest] eqn:Hj; [discriminate|].
    destruct j as [i|i|]; simpl in H.
    + open_race s; simpl in *. 
      destruct (strategies !! i) as [st|] eqn:Hs; [|discriminate].
      destruct (invs !! i) as [v|] eqn:Hv; [|discriminate]. simpl in H.
      destruct (phase v) eqn:Hp; try discriminate. injection H as <-.
      eapply (StepLaunch (mkRace _ _ _ _ _ _ _ _ _ _ _ _ _ _ _ _)); simpl; eauto.
    + open_race s; simpl in *.
      destruct (strategies !! i) as [st|] eqn:Hs; [|discriminate].
      destruct (invs !! i) as [v|] eqn:Hv; [|discriminate]. simpl in H.
      destruct (phase v) as [| |[t|msg]|msg|] eqn:Hp; try discriminate; injection H as <-.
      * unfold thenCallback. simpl.
        destruct done eqn:Hd.
        -- eapply (StepLate (mkRace _ _ _ _ _ _ _ _ _ _ _ _ _ _ _ _)); simpl; eauto.
        -- destruct (isLikelySitemapXml t) eqn:Hg; simpl.
           ++ eapply (StepWin (mkRace _ _ _ _ _ _ _ _ _ _ _ _ _ _ _ _)); simpl; eauto.
           ++ eapply (StepInvalid (mkRace _ _ _ _ _ _ _ _ _ _ _ _ _ _ _ _)); simpl; eauto.
      * eapply (StepPass (mkRace _ _ _ _ _ _ _ _ _ _ _ _ _ _ _ _)); simpl; eauto.
      * eapply (StepCatch (mkRace _ _ _ _ _ _ _ _ _ _ _ _ _ _ _ _)); simpl; eauto.
    + open_race s; simpl in *.
      destruct returned; try discriminate.
      destruct raceP as [|r|msg] eqn:Hr; try discriminate; injection H as <-.
      * eapply (StepReturn (mkRace _ _ _ _ _ _ _ _ _ _ _ _ _ _ _ _)); simpl; eauto.
      * eapply (StepRethrow (mkRace _ _ _ _ _ _ _ _ _ _ _ _ _ _ _ _)); simpl; eauto.
  - destruct (strategies s !! i) as [st|] eqn:Hs; [|discriminate].
    destruct (invs s !! i) as [v|] eqn:Hv; [|discriminate]. simpl in H.
    destruct (phase v) eqn:Hp; try discriminate. injection H as <-.
    eapply StepSettle; eauto.
  - destruct (invs s !! i) as [v|] eqn:Hv; [|discriminate]. simpl in H.
    destruct (timer v) eqn:Ht; try discriminate.
    destruct (jobs s) eqn:Hj; try discriminate. injection H as <-.
    eapply StepDeadline; eauto.
  - destruct (overallTimer s) eqn:Ht; try discriminate.
    destruct (jobs s) eqn:Hj; try discriminate. injection H as <-.
    eapply StepOverall; eauto.
  - destruct (extSignal s) as [[]|] eqn:Hx; try discriminate. injection H as <-.
    eapply StepCancel; eauto.
Qed.

Ltac step_cases H := apply step_Step in H; destruct H.

(** Normal forms: each operation as setters applied to the state. *)

Lemma resolveRunner_nf r s :
  resolveRunner r s =
  set_jobs (jobs s ++ continuation (isPending (runnerP s)) (raceP s))
    (set_raceP (raceAfter (isPending (runnerP s)) (raceP s) (Fulfilled r))
       (set_runnerP (settleWith (runnerP s) (Fulfilled r))
          (log (AResolve r) s))).
Proof.
  open_race s; unfold resolveRunner, settleRace, continuation, raceAfter, settleWith, enqueue, log; simpl.
  destruct runnerP, raceP; simpl; rewrite ?app_nil_r; reflexivity.
Qed.

Lemma rejectRunner_nf m s :
  rejectRunner m s =
  set_jobs (jobs s ++ continuation (isPending (runnerP s)) (raceP s))
    (set_raceP (raceAfter (isPending (runnerP s)) (raceP s) (Rejected m))
       (set_runnerP (settleWith (runnerP s) (Rejected m))
          (log (ARejectRunner m) s))).
Proof.
  open_race s; unfold rejectRunner, settleRace, continuation, raceAfter, settleWith, enqueue, log; simpl.
  destruct runnerP, raceP; simpl; rewrite ?app_nil_r; reflexivity.
Qed.

Lemma rejectOverall_nf m s :
  rejectOverall m s =
  set_jobs (jobs s ++ continuation (isPending (overallP s)) (raceP s))
    (set_raceP (raceAfter (isPending (overallP s)) (raceP s) (Rejected m))
       (set_overallP (settleWith (overallP s) (Rejected m))
          (log (ARejectOverall m) s))).
Proof.
  open_race s; unfold rejectOverall, settleRace, continuation, raceAfter, settleWith, enqueue, log; simpl.
  destruct overallP, raceP; simpl; rewrite ?app_nil_r; reflexivity.
Qed.

Lemma abortRace_nf s :
  abortRace s =
  set_invs (if raceAborted s then invs s else abortLinked <$> invs s)
    (set_raceAborted true (log AAbortRace s)).
Proof.
  open_race s; unfold abortRace, log; simpl. destruct raceAborted; reflexivity.
Qed.

Lemma finishRejectIfAllFailed_nf s :
  finishRejectIfAllFailed s =
  let m := allFailedMessage (errors s) in
  let fresh := allFailed s && isPending (runnerP s) in
  set_jobs (jobs s ++ continuation fresh (raceP s))
    (set_raceP (raceAfter fresh (raceP s) (Rejected m))
       (set_runnerP (if allFailed s then settleWith (runnerP s) (Rejected m) else runnerP s)
          (set_trace (trace s ++ if allFailed s then [ARejectRunner m] else []) s))).
Proof.
  unfold finishRejectIfAllFailed, allFailed. 
  destruct (negb (done s) && (length (strategies s) <=? completed s)) eqn:E.
  - rewrite rejectRunner_nf. open_race s; reflexivity.
  - open_race s; simpl. unfold continuation. simpl. rewrite !app_nil_r. reflexivity.
Qed.

Lemma cancelLink_nf s :
  (if extLinked s then set_extLinked false (abortRace s) else s) =
  set_extLinked false
    (set_invs (if extLinked s && negb (raceAborted s)
               then abortLinked <$> invs s else invs s)
       (set_raceAborted (extLinked s || raceAborted s)
          (set_trace (trace s ++ if extLinked s then [AAbortRace] else []) s))).
Proof.
  rewrite abortRace_nf. open_race s; simpl.
  destruct extLinked, raceAborted; simpl; rewrite ?app_nil_r; reflexivity.
Qed.

Lemma fmap_phase_alter p i (l : list Invocation) :
  phase <$> alter (with_phase p) i l = <[i := p]> (phase <$> l).
Proof.
  revert i; induction l as [|v l IH]; intros [|i]; simpl; try reflexivity.
  f_equal. apply IH.
Qed.

Lemma phase_abortLinked v : phase (abortLinked v) = phase v.
Proof. unfold abortLinked. destruct (linked v); reflexivity. Qed.

Lemma fmap_phase_abort (b : bool) (l : list Invocation) :
  phase <$> (if b then l else abortLinked <$> l) = phase <$> l.
Proof.
  destruct b; [reflexivity|]. rewrite <- list_fmap_compose.
  apply list_fmap_ext. intros _ v _. apply phase_abortLinked.
Qed.

Lemma fmap_phase_abort' (b : bool) (l : list Invocation) :
  phase <$> (if b then abortLinked <$> l else l) = phase <$> l.
Proof. destruct b; [apply (fmap_phase_abort false)|reflexivity]. Qed.

Lemma length_abort (b : bool) (l : list Invocation) :
  length (if b then l else abortLinked <$> l) = length l.
Proof. destruct b; [reflexivity|apply length_fmap]. Qed.

Lemma length_abort' (b : bool) (l : list Invocation) :
  length (if b then abortLinked <$> l else l) = length l.
Proof. destruct b; [apply length_fmap|reflexivity]. Qed.

Lemma phase_at (l : list Invocation) i v p :
  l !! i = Some v -> phase v = p -> (phase <$> l) !! i = Some p.
Proof. intros H <-. rewrite list_lookup_fmap, H. reflexivity. Qed.

(** Brings every case of [Step] into the form [P (mkRace ...)]. *)
Ltac normal_form :=
  unfold launch, settle, thenCallback, catchCallback, set_phase, set_inv,
    enqueue;
  rewrite ?finishRejectIfAllFailed_nf, ?resolveRunner_nf, ?rejectRunner_nf,
    ?rejectOverall_nf, ?cancelLink_nf, ?abortRace_nf;
  unfold log, allFailed.

Ltac phases_nf :=
  rewrite ?fmap_phase_alter, ?list_fmap_insert, ?fmap_phase_abort,
    ?fmap_phase_abort', ?length_alter, ?length_insert, ?length_abort,
    ?length_abort', ?length_fmap in *.

Lemma pendingCount_insert ps i p q :
  ps !! i = Some p ->
  pendingCount (<[i := q]> ps) + weight p = pendingCount ps + weight q.
Proof.
  revert i. induction ps as [|a ps IH]; intros [|i] H; simpl in *; try discriminate.
  - injection H as ->. destruct p, q; simpl; lia.
  - specialize (IH _ H). destruct a; simpl; lia.
Qed.

Lemma resolves_app a b : resolves (a ++ b) = resolves a + resolves b.
Proof. induction a as [|[] a IH]; simpl; auto. Qed.

Ltac to_phases :=
  repeat match goal with
    | Hv : ?l !! ?i = Some ?v, Hp : phase ?v = _ |- _ =>
        pose proof (phase_at l i v _ Hv Hp); clear Hp
    end.

Lemma pendingCount_pos ps i p :
  ps !! i = Some p -> weight p = 1 -> 0 < pendingCount ps.
Proof.
  revert i. induction ps as [|a ps IH]; intros [|i] H W; simpl in *; try discriminate.
  - injection H as ->. destruct p; simpl in *; lia.
  - specialize (IH _ H W). destruct a; lia.
Qed.

Lemma counting_step s e s' : Counting s -> step s e = Some s' -> Counting s'.
Proof.
  intros [Hl He Hb Hr Hres] H. step_cases H.
  all: normal_form.
  all: open_race s; unfold runnerConsistent, phases in *; simpl in *; subst.
  all: to_phases.
  all: split; unfold runnerConsistent, phases; simpl; phases_nf.
  all: rewrite ?resolves_app, ?length_app; simpl; try lia; try assumption.
  all: try match goal with
         | H : ?ps !! ?i = Some ?p |- context [pendingCount (<[?i := ?q]> ?ps)] =>
             pose proof (pendingCount_insert ps i p q H) as HP; simpl in HP
         end.
  all: try match goal with
         | H : ?ps !! ?i = Some ?p |- _ =>
             pose proof (pendingCount_pos ps i p H eq_refl) as HQ
         end.
  all: try lia.
  - destruct runnerP; simpl; intuition (try discriminate; try lia).
  - destruct done; simpl.
    { destruct runnerP; simpl; intuition (try discriminate; try lia). }
    destruct (Nat.leb_spec (length strategies) (S (length errors))).
    + destruct runnerP; simpl; intuition (try discriminate; try lia).
    + destruct runnerP; simpl; intuition (try discriminate; try lia).
  - destruct (negb done && _); simpl; lia.
  - rewrite list_insert_id by (rewrite list_lookup_fmap, H; reflexivity). assumption.
  - destruct extLinked; simpl; lia.
Qed.

Ltac split_promises :=
  repeat match goal with
    | |- context [negb ?d && ?x] => destruct (negb d && x)
    | p : Promise Empty_set |- _ => destruct p as [|[]|?]
    | p : Promise _ |- _ => destruct p
    end.

Lemma outer_step s e s' : Outer s -> step s e = Some s' -> Outer s'.
Proof.
  intros [Hr Hq Ho Ht Hret] H. step_cases H.
  all: normal_form.
  all: open_race s; simpl in *; subst.
  all: split; simpl; try assumption.
  all: unfold raceAfter, settleWith, continuation in *.
  all: try match goal with
         | H : overallTimer = Armed _ |- _ => clear H
         end.
  all: try clear H0 H1 H2.
  all: split_promises; simpl in *; try tauto.
  all: try (intuition (try congruence; eauto); fail).
  all: try (destruct Hret as (? & ? & ?); discriminate).
  all: try (intros d0; destruct overallTimer; simpl; try discriminate; exfalso; eapply Ht; reflexivity).
Qed.

Lemma launchJobs_app a b : launchJobs (a ++ b) = launchJobs a ++ launchJobs b.
Proof. induction a as [|[] a IH]; simpl; auto. f_equal; auto. Qed.

Lemma launches_app a b : launches (a ++ b) = launches a ++ launches b.
Proof. induction a as [|[] a IH]; simpl; auto. f_equal; auto. Qed.

Lemma launchJobs_continuation b p : launchJobs (continuation b p) = [].
Proof. unfold continuation. destruct (b && isPending p); reflexivity. Qed.

Lemma launch_step s e s' : launchOrder s -> step s e = Some s' -> launchOrder s'.
Proof.
  intros [Hj Ht] H. step_cases H.
  all: normal_form.
  all: open_race s; unfold launchOrder in *; simpl in *; subst.
  all: rewrite ?launchJobs_app, ?launches_app, ?launchJobs_continuation; simpl;
       rewrite ?app_nil_r.
  all: try (split; assumption).
  - set (k := length (launches trace)) in *.
    destruct (length strategies - k) as [|n] eqn:E; [discriminate|].
    simpl in Hj. injection Hj as -> Hj.
    rewrite length_app. simpl. fold k. replace (k + 1) with (S k) by lia.
    replace (length strategies - S k) with n by lia.
    split; [assumption|].
    rewrite (take_S_r _ _ (name st)), <- Ht; [reflexivity|].
    rewrite list_lookup_fmap, H0. reflexivity.
  - destruct (negb done && _); simpl; rewrite app_nil_r; split; assumption.
  - destruct extLinked; simpl; rewrite app_nil_r; split; assumption.
Qed.

Lemma elem_of_continuation j b p :
  j ∈ continuation b p <-> j = JFinally /\ b = true /\ p = Pending.
Proof.
  unfold continuation.
  destruct b, p; simpl; rewrite ?list_elem_of_singleton, ?elem_of_nil;
    split; intros H; try (destruct H as (? & ? & ?)); try discriminate;
    try contradiction; auto.
Qed.

Lemma NoDup_continuation b p : NoDup (continuation b p).
Proof.
  unfold continuation. destruct (b && isPending p); [apply NoDup_singleton|apply NoDup_nil_2].
Qed.

Ltac lookup_cases i0 i :=
  destruct (decide (i0 = i)) as [->|?];
  [ rewrite ?list_lookup_insert_eq by (eapply lookup_lt_Some; eassumption)
  | rewrite ?list_lookup_insert_ne by congruence ].

Ltac queue_shape :=
  repeat match goal with
    | H : NoDup (_ :: _) |- _ => apply NoDup_cons in H; destruct H
    | |- NoDup (_ ++ _) => apply NoDup_app; split; [|split]
    | |- NoDup [_] => apply NoDup_singleton
    | |- NoDup (continuation _ _) => apply NoDup_continuation
    end;
  try assumption;
  intros.

Ltac membership :=
  repeat (rewrite elem_of_app in * || rewrite elem_of_cons in *
          || rewrite elem_of_continuation in *
          || rewrite list_elem_of_singleton in * || rewrite elem_of_nil in * ).

Ltac learn H :=
  let T := type of H in
  lazymatch goal with
  | _ : T |- _ => fail
  | _ => pose proof H
  end.

Ltac is_index n :=
  lazymatch goal with
  | _ : _ !! n = _ |- _ => idtac
  | |- context [JReact n] => idtac
  | |- context [JLaunch n] => idtac
  | |- context [_ !! n] => idtac
  | _ : JReact n ∈ _ |- _ => idtac
  | _ : JLaunch n ∈ _ |- _ => idtac
  end.

Ltac instantiate_at_indices :=
  repeat match goal with
    | n : nat, H : forall i : nat, _ |- _ => is_index n; learn (H n)
    end;
  repeat match goal with
    | H : forall i : nat, _ |- _ => clear H
    end;
  repeat match goal with
    | Hl : ?ps !! ?i = Some _, H : context [?ps !! ?i] |- _ =>
        lazymatch type of H with
        | ps !! i = Some _ => fail
        | _ => rewrite Hl in H
        end
    end;
  simpl in *.

Ltac unpack :=
  repeat match goal with
    | H : exists _, _ |- _ => destruct H
    | H : _ /\ _ |- _ => destruct H
    end;
  subst.

Ltac closer :=
  unpack;
  try (intuition (subst; try (intuition (congruence || discriminate))); fail).

Lemma queueing_step s e s' :
  Outer s -> Queueing s -> step s e = Some s' -> Queueing s'.
Proof.
  intros [Hr Hq Ho _ Hret] [Hnd Hre Hla Hfi] H. step_cases H.
  all: normal_form.
  all: open_race s; unfold phases in *; simpl in *; subst.
  all: try match goal with
         | H : ?l !! ?i = Some ?v |- context [<[?i := ?w]> ?l] =>
             lazymatch w with
             | context [phase v] =>
                 pose proof (phase_at l i v _ H eq_refl)
             end
         end.
  all: to_phases.
  all: split; unfold phases; simpl; phases_nf.
  all: queue_shape.
  all: try match goal with
         | |- context [<[?i := _]> _ !! ?i0] => lookup_cases i0 i
         end.
  all: instantiate_at_indices.
  all: membership.
  all: try (intuition (subst; congruence); fail).
  all: closer.
  all: clear Ho Hq; unfold raceAfter, settleWith in *.
  all: destruct raceP; simpl in *; unpack; simpl in *.
  all: try (intuition congruence; fail).
  all: destruct returned; simpl in *; unpack; simpl in *; try discriminate.
  all: try (intuition congruence; fail).
  all: repeat match goal with
         | |- context [negb ?d && ?x] => destruct (negb d && x); simpl in *
         | |- context [isPending ?p] => is_var p; destruct p as [| |]; simpl in *
         end.
  all: intuition congruence.
Qed.

(** ** Invariants along a run *)

Lemma inv_step s e s' : Inv s -> step s e = Some s' -> Inv s'.
Proof.
  intros [Hc Hq Ho Hl] H. split.
  - eapply counting_step; eauto.
  - eapply queueing_step; eauto.
  - eapply outer_step; eauto.
  - eapply launch_step; eauto.
Qed.

Lemma inv_run evs : forall s s', Inv s -> run s evs = Some s' -> Inv s'.
Proof.
  induction evs as [|e evs IH]; simpl; intros s s' HI H.
  - injection H as <-. assumption.
  - destruct (step s e) as [s1|] eqn:E; [|discriminate].
    eapply IH; [eapply inv_step; eauto|assumption].
Qed.

Lemma start_cases adapt targetUrl config s0 :
  fetchSitemapTextRaced adapt targetUrl config = Races s0 ->
  strategies s0 = buildStrategies adapt (trim targetUrl)
                    (effectivePerStrategyTimeoutMs config)
  /\ phases s0 = [Queued; Queued; Queued; Queued]
  /\ length (invs s0) = 4
  /\ jobs s0 = [JLaunch 0; JLaunch 1; JLaunch 2; JLaunch 3]
  /\ errors s0 = [] /\ done s0 = false /\ completed s0 = 0
  /\ runnerP s0 = Pending /\ overallP s0 = Pending /\ raceP s0 = Pending
  /\ returned s0 = Pending
  /\ overallMs s0 = effectiveOverallTimeoutMs config
  /\ overallTimer s0 = Armed (effectiveOverallTimeoutMs config)
  /\ extSignal s0 = (aborted <$> signal config)
  /\ launches (trace s0) = [] /\ resolves (trace s0) = 0.
Proof.
  unfold fetchSitemapTextRaced.
  destruct (String.eqb (trim targetUrl) ""); [discriminate|].
  simpl. intros H. injection H as <-. simpl.
  repeat split.
  all: destruct (signal config) as [[[]]|]; reflexivity.
Qed.

Lemma inv_start adapt targetUrl config s0 :
  fetchSitemapTextRaced adapt targetUrl config = Races s0 -> Inv s0.
Proof.
  intros H. apply start_cases in H.
  destruct H as (Hs & Hp & Hl & Hj & He & Hd & Hc & Hr & Ho & Ha & Hret & Hms & Ht & Hx & Hla & Hres).
  split; [split|split|split|].
  all: unfold runnerConsistent, launchOrder; rewrite ?Hs, ?Hp, ?Hl, ?Hj, ?He, ?Hd, ?Hc, ?Hr, ?Ho, ?Ha, ?Hret, ?Hla, ?Hres; simpl; auto.
  - split; [reflexivity|lia].
  - repeat (apply NoDup_cons; split; [rewrite ?elem_of_cons, ?elem_of_nil; intuition discriminate|]).
    apply NoDup_nil_2.
  - intros i. rewrite !elem_of_cons, elem_of_nil.
    destruct i as [|[|[|[|i]]]]; simpl; intuition discriminate.
  - intros i. rewrite !elem_of_cons, elem_of_nil.
    intros [E|[E|[E|[E|[]]]]]; injection E as ->; reflexivity.
  - rewrite !elem_of_cons, elem_of_nil. intuition discriminate.
Qed.

Lemma inv_reachable adapt s : reachable adapt s -> Inv s.
Proof.
  intros (t & c & s0 & evs & H0 & H). eapply inv_run; [eapply inv_start|]; eauto.
Qed.

(** Frame: what no step changes / monotone facts *)
Lemma step_static s e s' :
  step s e = Some s' ->
  strategies s' = strategies s /\ overallMs s' = overallMs s
  /\ (runnerP s <> Pending -> runnerP s' = runnerP s)
  /\ (overallP s <> Pending -> overallP s' = overallP s)
  /\ (raceP s <> Pending -> raceP s' = raceP s)
  /\ (returned s <> Pending -> returned s' = returned s)
  /\ (done s = true -> done s' = true).
Proof.
  intros H. step_cases H.
  all: normal_form.
  all: open_race s; simpl in *; subst.
  all: repeat split; auto.
  all: unfold raceAfter, settleWith.
  all: try congruence.
  all: repeat match goal with
    | |- context [negb ?d && ?x] => destruct (negb d && x); simpl
    | |- context [isPending ?p] => is_var p; destruct p as [| |]; simpl
    end; congruence.
Qed.

(** Ghost views: append, continuation, untouched indices *)

Lemma firstValid_app strats ps a b :
  firstValid strats ps (a ++ b) =
  match firstValid strats ps a with
  | Some r => Some r
  | None => firstValid strats ps b
  end.
Proof.
  induction a as [|[i|i|] a IH]; simpl; auto.
  destruct (ps !! i ≫= validText), (strats !! i); auto.
Qed.

Lemma firstValid_continuation strats ps b p :
  firstValid strats ps (continuation b p) = None.
Proof. unfold continuation. destruct (b && isPending p); reflexivity. Qed.

Lemma firstValid_absent strats ps i p js :
  JReact i ∉ js ->
  firstValid strats (<[i := p]> ps) js = firstValid strats ps js.
Proof.
  induction js as [|[k|k|] js IH]; simpl; intros H; auto.
  - apply IH. rewrite elem_of_cons in H. tauto.
  - rewrite elem_of_cons in H.
    rewrite list_lookup_insert_ne by (intros ->; tauto).
    rewrite IH by tauto. reflexivity.
  - apply IH. rewrite elem_of_cons in H. tauto.
Qed.







Lemma weights_absent ps i p js :
  JReact i ∉ js ->
  map (jobWeight (<[i := p]> ps)) js = map (jobWeight ps) js.
Proof.
  induction js as [|[k|k|] js IH]; simpl; intros H; auto.
  - f_equal. apply IH. rewrite elem_of_cons in H. tauto.
  - rewrite elem_of_cons in H.
    rewrite list_lookup_insert_ne by (intros ->; tauto).
    rewrite IH by tauto. reflexivity.
  - f_equal. apply IH. rewrite elem_of_cons in H. tauto.
Qed.

Lemma weights_continuation ps b p :
  list_sum (map (jobWeight ps) (continuation b p))
  = if b && isPending p then 1 else 0.
Proof. unfold continuation. destruct (b && isPending p); reflexivity. Qed.

(** Under the invariant, a reaction of strategy [i] is queued only once,
    and not at all unless [i] has settled. *)
Lemma react_absent_rest s i rest :
  Inv s -> jobs s = JReact i :: rest -> JReact i ∉ rest.
Proof.
  intros [_ [Hnd _ _ _] _ _] Hj. rewrite Hj in Hnd.
  apply NoDup_cons in Hnd. tauto.
Qed.

Lemma react_absent s i p :
  Inv s -> phases s !! i = Some p -> reacting p = false -> JReact i ∉ jobs s.
Proof.
  intros [_ [_ Hre _ _] _ _] Hp Hr Hin.
  apply Hre in Hin. rewrite Hp in Hin. simpl in Hin. congruence.
Qed.

Lemma runner_pending_of_settled s i p :
  Inv s -> phases s !! i = Some p -> weight p = 1 -> done s = false ->
  runnerP s = Pending.
Proof.
  intros [[_ He Hb Hr _] _ _ _] Hp Hw Hd.
  pose proof (pendingCount_pos _ _ _ Hp Hw).
  unfold runnerConsistent in Hr. rewrite Hd in *.
  destruct (runnerP s); [reflexivity| discriminate | lia].
Qed.

Lemma runner_of_done s : Inv s -> done s = true -> exists r, runnerP s = Fulfilled r.
Proof.
  intros [[_ _ _ Hr _] _ _ _] Hd. unfold runnerConsistent in Hr.
  destruct (runnerP s); [destruct Hr; congruence| eauto | destruct Hr; congruence].
Qed.

Ltac wfin :=
  try match goal with HI : Inv _ |- _ => clear HI end;
  simpl; repeat (case_match; simpl in *; simplify_eq); try reflexivity; try congruence.

Lemma winner_step s e s' :
  Inv s -> step s e = Some s' ->
  winnerOf s' =
  match winnerOf s with
  | Some r => Some r
  | None => settleResult s e
  end.
Proof.
  intros HI H. apply step_Step in H. destruct H.
  - (* launch *)
    pose proof (react_absent s i Queued HI (phase_at _ _ _ _ H1 H2) eq_refl) as Ha.
    rewrite H in Ha. rewrite elem_of_cons in Ha.
    normal_form. open_race s; unfold winnerOf, phases in *; simpl in *; subst.
    phases_nf; simpl. rewrite firstValid_absent by tauto. wfin.
  - (* late *)
    destruct (runner_of_done s HI H3) as [r Hr].
    normal_form. open_race s; unfold winnerOf, phases in *; simpl in *; subst.
    reflexivity.
  - (* invalid *)
    pose proof (react_absent_rest s i rest HI H) as Ha.
    pose proof (phase_at _ _ _ _ H1 H2) as Hp.
    normal_form. open_race s; unfold winnerOf, phases in *; simpl in *; subst.
    phases_nf; simpl. rewrite Hp. simpl. rewrite H4.
    rewrite firstValid_app, firstValid_absent by assumption. simpl.
    rewrite list_lookup_insert_eq by (eapply lookup_lt_Some; eauto). simpl.
    wfin.
  - (* win *)
    pose proof (phase_at _ _ _ _ H1 H2) as Hp.
    pose proof (runner_pending_of_settled s i _ HI Hp eq_refl H3) as Hr.
    normal_form. open_race s; unfold winnerOf, phases in *; simpl in *; subst.
    simpl. rewrite Hp. simpl. rewrite H4, H0. wfin.
  - (* pass *)
    pose proof (react_absent_rest s i rest HI H) as Ha.
    pose proof (phase_at _ _ _ _ H1 H2) as Hp.
    normal_form. open_race s; unfold winnerOf, phases in *; simpl in *; subst.
    phases_nf; simpl. rewrite Hp. simpl.
    rewrite firstValid_app, firstValid_absent by assumption. simpl.
    rewrite list_lookup_insert_eq by (eapply lookup_lt_Some; eauto). simpl.
    wfin.
  - (* catch *)
    pose proof (react_absent_rest s i rest HI H) as Ha.
    pose proof (phase_at _ _ _ _ H1 H2) as Hp.
    normal_form. open_race s; unfold winnerOf, phases in *; simpl in *; subst.
    phases_nf; simpl. rewrite Hp. simpl.
    rewrite firstValid_app, firstValid_absent, firstValid_continuation by assumption.
    unfold settleWith.
    destruct (negb done && _); wfin.
  - (* return *)
    normal_form. open_race s; unfold winnerOf, phases in *; simpl in *; subst.
    wfin.
  - (* rethrow *)
    normal_form. open_race s; unfold winnerOf, phases in *; simpl in *; subst.
    wfin.
  - (* settle *)
    pose proof (phase_at _ _ _ _ H0 H1) as Hp.
    pose proof (react_absent s i InFlight HI Hp eq_refl) as Ha.
    normal_form. open_race s; unfold winnerOf, phases, validOutcome in *; simpl in *; subst.
    phases_nf; simpl. simpl.
    rewrite firstValid_app, firstValid_absent by assumption. simpl.
    rewrite list_lookup_insert_eq by (eapply lookup_lt_Some; eauto). simpl.
    rewrite H. unfold validOutcome.
    wfin.
  - (* deadline *)
    normal_form. open_race s; unfold winnerOf, phases in *; simpl in *; subst.
    phases_nf; simpl. simpl.
    wfin.
  - (* overall *)
    normal_form. open_race s; unfold winnerOf, phases in *; simpl in *; subst.
    phases_nf; simpl. rewrite ?firstValid_app, ?firstValid_continuation.
    wfin.
  - (* cancel *)
    normal_form. open_race s; unfold winnerOf, phases in *; simpl in *; subst.
    phases_nf; simpl. rewrite ?firstValid_app, ?firstValid_continuation.
    wfin.
Qed.




Lemma list_sum_app' a b : list_sum (a ++ b) = list_sum a + list_sum b.
Proof. induction a; simpl; auto. rewrite IHa. lia. Qed.

Ltac bprep s :=
  normal_form; open_race s; unfold backlog, phases in *;
  simpl in *; subst; phases_nf; simpl.

Ltac bnorm :=
  rewrite ?map_app, ?list_sum_app', ?weights_absent, ?weights_continuation
    by assumption;
  simpl;
  rewrite ?list_lookup_insert_eq by (eapply lookup_lt_Some; eassumption);
  simpl.

Lemma backlog_tick s s' : Inv s -> step s Tick = Some s' -> backlog s' < backlog s.
Proof.
  intros HI H. apply step_Step in H. remember Tick as e eqn:Ee.
  destruct H; try discriminate.
  - pose proof (react_absent s i Queued HI (phase_at _ _ _ _ H1 H2) eq_refl) as Ha.
    rewrite H in Ha. rewrite elem_of_cons in Ha.
    assert (JReact i ∉ rest) by tauto.
    bprep s. bnorm. lia.
  - pose proof (react_absent_rest s i rest HI H) as Ha.
    pose proof (phase_at _ _ _ _ H1 H2) as Hp.
    bprep s. rewrite Hp. bnorm. lia.
  - pose proof (react_absent_rest s i rest HI H) as Ha.
    pose proof (phase_at _ _ _ _ H1 H2) as Hp.
    bprep s. rewrite Hp. bnorm. lia.
  - pose proof (react_absent_rest s i rest HI H) as Ha.
    pose proof (phase_at _ _ _ _ H1 H2) as Hp.
    bprep s. rewrite Hp. bnorm.
    unfold raceAfter, settleWith. destruct runnerP, raceP; simpl; lia.
  - pose proof (react_absent_rest s i rest HI H) as Ha.
    pose proof (phase_at _ _ _ _ H1 H2) as Hp.
    bprep s. rewrite Hp. bnorm. lia.
  - pose proof (react_absent_rest s i rest HI H) as Ha.
    pose proof (phase_at _ _ _ _ H1 H2) as Hp.
    bprep s. rewrite Hp. bnorm.
    unfold raceAfter, settleWith.
    destruct (negb done && _), runnerP, raceP; simpl; lia.
  - bprep s. lia.
  - bprep s. lia.
Qed.

Lemma tick_enabled s : Inv s -> jobs s <> [] -> exists s', step s Tick = Some s'.
Proof.
  intros [[Hlen _ _ _ _] [_ Hre Hla Hfi] _ _] Hne.
  unfold step. destruct (jobs s) as [|j rest] eqn:Hj; [congruence|].
  destruct j as [i|i|]; unfold runJob.
  - specialize (Hla i). rewrite elem_of_cons in Hla.
    specialize (Hla (or_introl eq_refl)). unfold phases in Hla.
    rewrite list_lookup_fmap in Hla.
    destruct (invs s !! i) as [v|] eqn:Hv; [|discriminate].
    simpl in Hla. injection Hla as Hp.
    destruct (lookup_lt_is_Some_2 (strategies s) i) as [st Hs].
    { rewrite <- Hlen. eapply lookup_lt_Some; eauto. }
    open_race s; simpl in *. rewrite Hs, Hv. simpl. rewrite Hp. eauto.
  - specialize (Hre i). rewrite elem_of_cons in Hre.
    destruct Hre as [Hre _]. specialize (Hre (or_introl eq_refl)).
    unfold phases in Hre. rewrite list_lookup_fmap in Hre.
    destruct (invs s !! i) as [v|] eqn:Hv; [|discriminate].
    simpl in Hre.
    destruct (lookup_lt_is_Some_2 (strategies s) i) as [st Hs].
    { rewrite <- Hlen. eapply lookup_lt_Some; eauto. }
    open_race s; simpl in *. rewrite Hs, Hv. simpl.
    destruct (phase v) as [| |[]| |]; simpl in Hre; try discriminate; eauto.
  - rewrite elem_of_cons in Hfi. destruct Hfi as [Hfi _].
    destruct (Hfi (or_introl eq_refl)) as [Hr Hp].
    open_race s; simpl in *. rewrite Hr.
    destruct raceP; [congruence| eauto | eauto].
Qed.

Lemma run_app evs1 : forall evs2 s,
  run s (evs1 ++ evs2) =
  match run s evs1 with
  | Some s1 => run s1 evs2
  | None => None
  end.
Proof.
  induction evs1 as [|e evs1 IH]; simpl; intros; [reflexivity|].
  destruct (step s e); [apply IH|reflexivity].
Qed.

Lemma drain n : forall s,
  Inv s -> backlog s <= n ->
  exists k s', run s (repeat Tick k) = Some s' /\ jobs s' = [].
Proof.
  induction n as [|n IH]; intros s HI Hb.
  - exists 0, s. split; [reflexivity|].
    destruct (jobs s) as [|j rest] eqn:Hj; [reflexivity|].
    exfalso. unfold backlog in Hb. rewrite Hj in Hb. simpl in Hb.
    destruct j; simpl in Hb; try lia. destruct (phases s !! i) as [[]|]; lia.
  - destruct (jobs s) as [|j rest] eqn:Hj.
    + exists 0, s. auto.
    + destruct (tick_enabled s HI) as [s1 H1]; [congruence|].
      pose proof (backlog_tick _ _ HI H1).
      destruct (IH s1) as (k & s' & Hr & He); [eapply inv_step; eauto|lia|].
      exists (S k), s'. cbn [repeat run]. rewrite H1. auto.
Qed.

(** ** Cancellation reaches every request *)

Lemma lookup_abort (b : bool) (l : list Invocation) j w' :
  (if b then l else abortLinked <$> l) !! j = Some w' ->
  exists w, l !! j = Some w /\ w' = (if b then w else abortLinked w).
Proof.
  destruct b; [eauto|]. rewrite list_lookup_fmap.
  destruct (l !! j) as [w|]; simpl; [|discriminate]. intros [= <-]. eauto.
Qed.

Lemma lookup_abort' (b : bool) (l : list Invocation) j w' :
  (if b then abortLinked <$> l else l) !! j = Some w' ->
  exists w, l !! j = Some w /\ w' = (if b then abortLinked w else w).
Proof.
  destruct b; [|eauto]. rewrite list_lookup_fmap.
  destruct (l !! j) as [w|]; simpl; [|discriminate]. intros [= <-]. eauto.
Qed.


Lemma lookup_insert_cases (v : Invocation) i (l : list Invocation) j w' :
  <[i := v]> l !! j = Some w' ->
  (j = i /\ w' = v) \/ (j <> i /\ l !! j = Some w').
Proof.
  destruct (decide (j = i)) as [->|Hne].
  - intros H. left. split; [reflexivity|].
    destruct (decide (i < length l)) as [Hlt|Hge].
    + rewrite list_lookup_insert_eq in H by assumption. congruence.
    + rewrite list_insert_ge in H by lia.
      apply lookup_lt_Some in H. lia.
  - rewrite list_lookup_insert_ne by congruence. auto.
Qed.






(** ** Request timers *)

Lemma timer_abortLinked v : timer (abortLinked v) = timer v.
Proof. unfold abortLinked. destruct (linked v); reflexivity. Qed.

Lemma lookup_alter_cases p i (l : list Invocation) j w' :
  alter (with_phase p) i l !! j = Some w' ->
  (exists w, j = i /\ l !! i = Some w /\ w' = with_phase p w)
  \/ (j <> i /\ l !! j = Some w').
Proof.
  destruct (decide (j = i)) as [->|Hne].
  - rewrite list_lookup_alter_eq. destruct (l !! i) as [w|]; simpl; [|discriminate].
    intros [= <-]. left. eauto.
  - rewrite list_lookup_alter_ne by congruence. auto.
Qed.

Lemma timers_step s e s' : TimersOwned s -> step s e = Some s' -> TimersOwned s'.
Proof.
  intros HS H. step_cases H.
  all: normal_form.
  all: open_race s; unfold TimersOwned in *; simpl in *; subst.
  all: intros j w' d0 Hj Ht.
  all: repeat match goal with
         | H : alter _ _ _ !! _ = Some _ |- _ =>
             apply lookup_alter_cases in H;
             destruct H as [(w0 & -> & H & ->)|[? H]]
         | H : <[_ := _]> _ !! _ = Some _ |- _ =>
             apply lookup_insert_cases in H; destruct H as [[-> ->]|[? H]]
         | H : (if _ then _ else abortLinked <$> _) !! _ = Some _ |- _ =>
             apply lookup_abort in H; destruct H as (w & H & ->)
         | H : (if _ then abortLinked <$> _ else _) !! _ = Some _ |- _ =>
             apply lookup_abort' in H; destruct H as (w & H & ->)
         end.
  all: simpl in *; try discriminate.
  all: try (eapply HS; eassumption).
  all: repeat match goal with
         | H : context [if ?b then _ else _] |- _ => destruct b
         | |- context [if ?b then _ else _] => destruct b
         end; simpl in *;
       rewrite ?timer_abortLinked, ?phase_abortLinked in *.
  all: repeat match goal with
         | Hv : ?l !! ?i = Some ?v, Hw : ?l !! ?i = Some ?w |- _ =>
             rewrite Hv in Hw; injection Hw as <-
         end.
  all: try (eapply HS; eassumption).
  all: try match goal with
         | Hv : ?l !! ?i = Some ?v, Ht : timer ?v = Armed _ |- _ =>
             destruct (HS _ _ _ Hv Ht) as [Hph _]; congruence
         end.
  - injection Ht as <-. split; [reflexivity|]. intros st0 E. congruence.
  - destruct (timer v); discriminate.
Qed.

Lemma timers_start adapt t c s0 :
  fetchSitemapTextRaced adapt t c = Races s0 -> TimersOwned s0.
Proof.
  unfold fetchSitemapTextRaced.
  destruct (String.eqb (trim t) EmptyString); [discriminate|].
  simpl. intros [= <-]. intros j w d. simpl.
  destruct j as [|[|[|[|j]]]]; simpl; try discriminate;
    intros [= <-]; discriminate.
Qed.

(** The timer of a request is cleared, or has fired, once the request has
    settled, whatever made it settle. *)
Lemma request_timer_is_cleared_on_settlement adapt s j w d :
  reachable adapt s -> invs s !! j = Some w -> timer w = Armed d ->
  phase w = InFlight /\ forall st, strategies s !! j = Some st -> d = timeoutMs st.
Proof.
  intros (t & c & s0 & evs & H0 & H).
  pose proof (timers_start _ _ _ _ H0) as HS. clear H0.
  revert s0 HS H. induction evs as [|e evs IH]; simpl; intros s0 HS H.
  - injection H as <-. apply HS.
  - destruct (step s0 e) as [s1|] eqn:E; [|discriminate].
    eapply IH; [eapply timers_step; eauto|exact H].
Qed.

(** ** Runs *)

Lemma run_static evs : forall s s',
  run s evs = Some s' ->
  strategies s' = strategies s /\ overallMs s' = overallMs s
  /\ (runnerP s <> Pending -> runnerP s' = runnerP s)
  /\ (overallP s <> Pending -> overallP s' = overallP s)
  /\ (raceP s <> Pending -> raceP s' = raceP s)
  /\ (returned s <> Pending -> returned s' = returned s)
  /\ (done s = true -> done s' = true).
Proof.
  induction evs as [|e evs IH]; simpl; intros s s' H.
  - injection H as <-. repeat split; auto.
  - destruct (step s e) as [s1|] eqn:E; [|discriminate].
    destruct (step_static _ _ _ E) as (A1 & A2 & A3 & A4 & A5 & A6 & A7).
    destruct (IH _ _ H) as (B1 & B2 & B3 & B4 & B5 & B6 & B7).
    repeat split; try congruence.
    + intros P. rewrite B3, A3; auto. rewrite A3; auto.
    + intros P. rewrite B4, A4; auto. rewrite A4; auto.
    + intros P. rewrite B5, A5; auto. rewrite A5; auto.
    + intros P. rewrite B6, A6; auto. rewrite A6; auto.
    + auto.
Qed.

Lemma run_winner evs : forall s s',
  Inv s -> run s evs = Some s' ->
  winnerOf s' =
  match winnerOf s with
  | Some r => Some r
  | None => firstValidSettle (strategies s) evs
  end.
Proof.
  induction evs as [|e evs IH]; simpl; intros s s' HI H.
  - injection H as <-. destruct (winnerOf s); reflexivity.
  - destruct (step s e) as [s1|] eqn:E; [|discriminate].
    rewrite (IH _ _ (inv_step _ _ _ HI E) H).
    rewrite (winner_step _ _ _ HI E).
    destruct (step_static _ _ _ E) as (-> & _).
    destruct (winnerOf s); [reflexivity|].
    destruct e; simpl; try reflexivity.
Qed.









(** Draining the queue: the caller's promise follows the race. *)
Lemma drained_returned s :
  Inv s -> jobs s = [] ->
  match raceP s with
  | Pending => returned s = Pending
  | Fulfilled r => returned s = Fulfilled (text r)
  | Rejected msg => returned s = Rejected msg
  end.
Proof.
  intros [_ [_ _ _ Hfi] [_ _ _ _ Hret] _] Hj. rewrite Hj in Hfi.
  rewrite elem_of_nil in Hfi.
  destruct (raceP s) eqn:Hr, (returned s) eqn:Ht; try reflexivity.
  - destruct Hret as (? & ? & ?). discriminate.
  - discriminate.
  - exfalso. apply Hfi. split; [reflexivity|discriminate].
  - destruct Hret as (r & E & ->). injection E as ->. reflexivity.
  - discriminate.
  - exfalso. apply Hfi. split; [reflexivity|discriminate].
  - destruct Hret as (? & ? & ?). discriminate.
  - congruence.
Qed.

Lemma drain_run s :
  Inv s -> exists k s', run s (repeat Tick k) = Some s' /\ jobs s' = [] /\ Inv s'.
Proof.
  intros HI. destruct (drain (backlog s) s HI (le_n _)) as (k & s' & Hr & Hj).
  exists k, s'. split; [exact Hr|]. split; [exact Hj|]. eapply inv_run; eauto.
Qed.

Lemma winnerOf_start adapt t c s0 :
  fetchSitemapTextRaced adapt t c = Races s0 -> winnerOf s0 = None /\ foreseen s0 = [].
Proof.
  intros H. apply start_cases in H.
  destruct H as (Hs & Hp & Hl & Hj & He & Hd & Hc & Hr & Ho & Ha & Hret & Hms & Ht & Hx & Hla & Hres).
  unfold winnerOf, foreseen. rewrite Hr, Hj, He. simpl. auto.
Qed.

(** ** Facts used by several claims *)

Lemma firstValidSettle_In strats evs r :
  firstValidSettle strats evs = Some r ->
  exists i o st, In (FetchSettles i o) evs /\ strats !! i = Some st
                 /\ validOutcome st o = Some r.
Proof.
  induction evs as [|e evs IH]; simpl; [discriminate|].
  destruct e; try (intros H; destruct (IH H) as (j & o' & st & ? & ? & ?);
                   exists j, o', st; auto; fail).
  destruct (strats !! i) as [st|] eqn:Hs; simpl.
  - destruct (validOutcome st o) eqn:Hv.
    + intros [= <-]. exists i, o, st. auto.
    + intros H; destruct (IH H) as (j & o' & st' & ? & ? & ?).
      exists j, o', st'; auto.
  - intros H; destruct (IH H) as (j & o' & st' & ? & ? & ?).
    exists j, o', st'; auto.
Qed.





Lemma start_never_empty adapt targetUrl config before :
  fetchSitemapTextRaced adapt targetUrl config
  <> Throws before "No fetch strategies available".
Proof.
  unfold fetchSitemapTextRaced.
  destruct (String.eqb (trim targetUrl) ""); simpl; discriminate.
Qed.

Lemma launched_prefix s :
  Inv s -> launches (trace s) = take (length (launches (trace s))) (name <$> strategies s).
Proof. intros [_ _ _ [_ H]]. exact H. Qed.

Lemma launched_all s :
  Inv s -> jobs s = [] -> launches (trace s) = name <$> strategies s.
Proof.
  intros [_ _ _ [Hj Ht]] He. rewrite He in Hj. simpl in Hj.
  rewrite Ht. apply take_ge. rewrite length_fmap.
  destruct (length (strategies s) - length (launches (trace s))) eqn:E; [lia|].
  discriminate.
Qed.


(** * The claims *)

(** ** C1: declaring the winner *)



(** ** C2: the first valid strategy wins *)



(** ** C3: the aggregated failure *)




(** ** C4: failures of one request *)

(** C4, amended: when the request of a strategy fails with a message that
    does not mention an abort, the strategy settles as a failure with that
    message; a message that mentions an abort becomes "timeout after Ns",
    N being the request's own deadline in seconds, and this does not depend
    on what aborted the request (the state of its timer and of its
    controller plays no part). *)
Theorem abort_shaped_rejections_become_timeouts s i st v o s' msg :
  strategies s !! i = Some st -> invs s !! i = Some v ->
  step s (FetchSettles i o) = Some s' ->
  attempt o = Failure msg ->
  phases s' !! i =
    Some (Settled (Failure (if isAbortMessage msg
                            then timeoutMessage (timeoutMs st) else msg))).
Proof.
  intros Hs Hv Hstep Ha. unfold step in Hstep. rewrite Hs, Hv in Hstep.
  simpl in Hstep. destruct (phase v); try discriminate. injection Hstep as <-.
  normal_form. open_race s; unfold phases; simpl in *.
  rewrite list_fmap_insert, list_lookup_insert_eq
    by (rewrite length_fmap; eapply lookup_lt_Some; eauto).
  simpl. unfold runOutcome, fetchTextWithTimeout. rewrite Ha.
  destruct (isAbortMessage msg); reflexivity.
Qed.

Lemma abort_shaped_rejections_become_timeouts_witness :
  phases (stateAfter defaults (launchAll ++ [FetchSettles 1 abortError])) !! 1
  = Some (Settled (Failure "timeout after 8s")).
Proof.
  refine (abort_shaped_rejections_become_timeouts
            (stateAfter defaults launchAll) 1
            {| name := "Direct"; timeoutMs := 8000; finish := fun text => text |}
            {| phase := InFlight; timer := Armed 8000;
               controllerAborted := false; linked := true |}
            abortError _ "The operation was aborted." _ _ _ _);
    reflexivity.
Defined.

(** C4 fails: the request of Direct is aborted once by its own timer and
    once by the race's signal after API has won; both runs record the same
    entry for it. *)
Lemma cancelled_is_reported_as_timeout :
  let own := stateAfter defaults
               (launchAll ++ [StrategyTimer 1; FetchSettles 1 abortError; Tick; Tick]) in
  let cancelled := stateAfter defaults
               (launchAll ++ [FetchSettles 0 (answers sitemap); Tick; Tick;
                              FetchSettles 1 abortError; Tick; Tick]) in
  (timer <$> invs own !! 1 = Some Fired /\ raceAborted own = false)
  /\ (timer <$> invs cancelled !! 1 = Some Cleared /\ raceAborted cancelled = true)
  /\ errors own = ["Direct: timeout after 8s"%string]
  /\ errors cancelled = ["Direct: timeout after 8s"%string].
Proof. vm_compute. repeat split; reflexivity. Qed.

(** ** C5: external cancellation *)




(** A signal that has fired before the call never reports "Cancelled". *)
Lemma fired_signal_is_reported_as_failures :
  let s := stateAfter fired
             (launchAll
              ++ [FetchSettles 0 abortError; FetchSettles 1 abortError;
                  FetchSettles 2 abortError; FetchSettles 3 abortError]
              ++ repeat Tick 9) in
  controllerAborted <$> invs (stateAfter fired launchAll) = [true; true; true; true]
  /\ jobs s = []
  /\ returned s =
       Rejected "All strategies failed: API: timeout after 12s | Direct: timeout after 8s | AllOrigins: timeout after 12s | Jina: timeout after 12s"
  /\ step s ExternalAbort = None.
Proof. vm_compute. repeat split; reflexivity. Qed.

(** ** C6: timers *)

(** C6 fails on the code: after API has won, and after all four strategies
    have failed, the race has settled, no job is queued, and the overall
    timer is still armed; after a win the timers of the losing requests are
    armed as well. *)
Theorem overall_timer_outlives_the_race :
  let won := stateAfter defaults
               (launchAll ++ [FetchSettles 0 (answers sitemap); Tick; Tick]) in
  let lost := stateAfter defaults
               (launchAll ++ [FetchSettles 0 (fails "HTTP 500"); FetchSettles 1 (fails "HTTP 500");
                              FetchSettles 2 (fails "HTTP 500"); FetchSettles 3 (fails "HTTP 500")]
                          ++ repeat Tick 9) in
  (returned won = Fulfilled sitemap /\ jobs won = []
   /\ overallTimer won = Armed 15000
   /\ timer <$> invs won = [Cleared; Armed 8000; Armed 12000; Armed 12000])
  /\ (returned lost =
        Rejected "All strategies failed: API: HTTP 500 | Direct: HTTP 500 | AllOrigins: HTTP 500 | Jina: HTTP 500"
      /\ jobs lost = []
      /\ overallTimer lost = Armed 15000
      /\ timer <$> invs lost = [Cleared; Cleared; Cleared; Cleared]).
Proof. vm_compute. repeat split; reflexivity. Qed.

(** ** C7: the timeouts in force *)



(** ** C8: the deadline of each strategy *)




(** ** C9: blank targets *)

Lemma dropWhile_all (p : ascii -> bool) (s : string) :
  forallb p (list_ascii_of_string s) = true -> dropWhile p s = EmptyString.
Proof.
  induction s as [|c s IH]; simpl; [reflexivity|].
  intros H. apply andb_true_iff in H as [Hc Hs]. rewrite Hc. auto.
Qed.

Lemma trim_blank (s : string) :
  forallb isWhiteSpace (list_ascii_of_string s) = true -> trim s = EmptyString.
Proof.
  intros H. unfold trim, trimStart. rewrite (dropWhile_all _ _ H). reflexivity.
Qed.

(** C9: a target that is empty or holds only white space makes the call
    fail at once with "URL is required": the exception is the first thing
    the call does, nothing was created, armed or launched before it, and it
    is not the aggregated failure. *)
Theorem blank_target_fails_fast
    (adapt : string -> string -> option string)
    (targetUrl : string) (config : FetchSitemapTextConfig) :
  forallb isWhiteSpace (list_ascii_of_string targetUrl) = true ->
  fetchSitemapTextRaced adapt targetUrl config = Throws [] "URL is required"
  /\ effects (fetchSitemapTextRaced adapt targetUrl config) = []
  /\ forall errs, "URL is required" <> allFailedMessage errs.
Proof.
  intros H. unfold fetchSitemapTextRaced.
  rewrite (trim_blank _ H). simpl. repeat split.
  intros errs. unfold allFailedMessage. simpl. discriminate.
Qed.

Lemma blank_target_fails_fast_witness :
  fetchSitemapTextRaced Sample.adapt "  " Sample.defaults
  = Throws [] "URL is required".
Proof.
  apply (blank_target_fails_fast Sample.adapt "  " Sample.defaults).
  reflexivity.
Defined.

(** ** C10: the strategies *)

(** C10: a call never throws "No fetch strategies available"; every race
    has the four strategies API, Direct, AllOrigins, Jina, whatever the
    target and the configuration; they are started in this order, and all
    four have been started once the queued jobs have run. *)
Theorem strategies_are_fixed
    (adapt : string -> string -> option string) targetUrl config :
  (forall before,
      fetchSitemapTextRaced adapt targetUrl config
      <> Throws before "No fetch strategies available")
  /\ forall s0 evs s,
       fetchSitemapTextRaced adapt targetUrl config = Races s0 ->
       run s0 evs = Some s ->
       name <$> strategies s = strategyNames
       /\ jobs s0 = [JLaunch 0; JLaunch 1; JLaunch 2; JLaunch 3]
       /\ (exists k, launches (trace s) = take k strategyNames)
       /\ exists n s', run s (repeat Tick n) = Some s'
                       /\ launches (trace s') = strategyNames.
Proof.
  split; [apply start_never_empty|].
  intros s0 evs s Hstart Hrun.
  pose proof (inv_start _ _ _ _ Hstart) as HI0.
  pose proof (inv_run _ _ _ HI0 Hrun) as HI.
  destruct (run_static _ _ _ Hrun) as (Hst & _).
  assert (name <$> strategies s = strategyNames) as Hn.
  { rewrite Hst. apply start_cases in Hstart. destruct Hstart as (-> & _). reflexivity. }
  split; [exact Hn|]. split; [apply start_cases in Hstart; tauto|]. split.
  - exists (length (launches (trace s))). rewrite <- Hn. apply launched_prefix, HI.
  - destruct (drain_run s HI) as (n & s' & Hk & Hj & HI').
    exists n, s'. split; [exact Hk|].
    rewrite (launched_all s' HI' Hj).
    destruct (run_static _ _ _ Hk) as (-> & _). exact Hn.
Qed.

Lemma strategies_are_fixed_witness :
  name <$> strategies (stateAfter cancellable launchAll) = strategyNames.
Proof.
  destruct (strategies_are_fixed adapt target cancellable) as [_ H].
  destruct (H (stateAfter cancellable []) launchAll
              (stateAfter cancellable launchAll)) as (Hn & _).
  - vm_compute; reflexivity.
  - vm_compute; reflexivity.
  - exact Hn.
Defined.

(** * Further invariants and lemmas *)

(** ** What a request holds, phase by phase *)

Lemma lifecycle_step s e s' : Lifecycle s -> step s e = Some s' -> Lifecycle s'.
Proof.
  intros HS H. step_cases H.
  all: normal_form.
  all: open_race s; unfold Lifecycle in *; simpl in *; subst.
  all: intros j w' Hj.
  all: repeat match goal with
         | H : alter _ _ _ !! _ = Some _ |- _ =>
             apply lookup_alter_cases in H;
             destruct H as [(w0 & -> & H & ->)|[? H]]
         | H : <[_ := _]> _ !! _ = Some _ |- _ =>
             apply lookup_insert_cases in H; destruct H as [[-> ->]|[? H]]
         | H : (if _ then _ else abortLinked <$> _) !! _ = Some _ |- _ =>
             apply lookup_abort in H; destruct H as (w & H & ->)
         | H : (if _ then abortLinked <$> _ else _) !! _ = Some _ |- _ =>
             apply lookup_abort' in H; destruct H as (w & H & ->)
         end.
  all: simpl in *.
  all: try (exact (HS _ _ Hj)).
  all: repeat match goal with
         | Hv : ?l !! ?i = Some ?v, Hw : ?l !! ?i = Some ?w |- _ =>
             rewrite Hv in Hw; injection Hw as <-
         end.
  all: repeat match goal with
         | Hv : _ !! _ = Some _ |- _ => apply HS in Hv
         end; clear HS.
  all: repeat match goal with
         | v : Invocation |- _ => destruct v as [ph tm ca lk]
         end.
  all: unfold abortLinked in *; simpl in *; subst; simpl in *.
  all: try (intuition (try discriminate; eauto); fail).
  all: repeat match goal with
         | |- context [?b] =>
             is_var b;
             match type of b with
             | bool => destruct b; simpl in *
             end
         end.
  all: try (intuition (try discriminate; eauto); fail).
  all: try (destruct ph; simpl in *; intuition (try discriminate; eauto); fail).
  all: try (destruct tm; simpl in *; intuition (try discriminate; eauto); fail).
  all: try (destruct ph, tm; simpl in *; intuition (try discriminate; eauto); fail).
  destruct H0 as ([->|[d ->]] & _); simpl; auto.
Qed.

Lemma lifecycle_start adapt t c s0 :
  fetchSitemapTextRaced adapt t c = Races s0 -> Lifecycle s0.
Proof.
  unfold fetchSitemapTextRaced.
  destruct (String.eqb (trim t) EmptyString); [discriminate|].
  simpl. intros [= <-]. intros j w. simpl.
  destruct j as [|[|[|[|j]]]]; simpl; try discriminate;
    intros [= <-]; simpl; auto.
Qed.

Lemma lifecycle_reachable adapt s : reachable adapt s -> Lifecycle s.
Proof.
  intros (t & c & s0 & evs & H0 & H).
  pose proof (lifecycle_start _ _ _ _ H0) as HS. clear H0.
  revert s0 HS H. induction evs as [|e evs IH]; simpl; intros s0 HS H.
  - injection H as <-. exact HS.
  - destruct (step s0 e) as [s1|] eqn:E; [|discriminate].
    eapply IH; [eapply lifecycle_step; eauto|exact H].
Qed.

(** ** The wiring of a call *)

Lemma logged_app a b : logged (a ++ b) = logged a ++ logged b.
Proof. induction a as [|[] a IH]; simpl; auto. f_equal; auto. Qed.

Lemma rejections_app a b : rejections (a ++ b) = rejections a ++ rejections b.
Proof. induction a as [|[] a IH]; simpl; auto. f_equal; auto. Qed.

Lemma unlinks_app a b : unlinks (a ++ b) = unlinks a + unlinks b.
Proof. induction a as [|[] a IH]; simpl; auto. Qed.

Lemma wiring_step s e s' : Inv s -> Wiring s -> step s e = Some s' -> Wiring s'.
Proof.
  intros [[Hl He Hb Hr Hres] _ [Hor Hq Ho Ht Hret] _] [Wl Wu Wt Wg Wr] H.
  step_cases H.
  all: normal_form.
  all: open_race s; unfold runnerConsistent, phases in *; simpl in *; subst.
  all: to_phases.
  all: split; simpl;
       rewrite ?logged_app, ?rejections_app, ?unlinks_app; simpl;
       rewrite ?app_nil_r, ?Nat.add_0_r; try assumption; try reflexivity.
  all: unfold raceAfter, settleWith in *.
  all: try (destruct returned; simpl in *; try reflexivity; try assumption; fail).
  all: try (destruct extSignal as [[]|]; reflexivity).
  all: try (rewrite Wu; reflexivity).
  all: try (rewrite Wg; reflexivity).
  all: try (destruct overallP as [|[]|]; simpl; intros; discriminate).
  all: try match goal with
         | H : ?ps !! ?i = Some (Threw _) |- _ =>
             pose proof (pendingCount_pos ps i _ H eq_refl) as HQ
         end.
  all: repeat match goal with
         | |- context [negb ?d && (?a <=? ?b)] =>
             destruct (Nat.leb_spec a b); destruct d; simpl
         | |- context [if ?b then _ else _] => is_var b; destruct b; simpl
         end.
  all: rewrite ?app_nil_r, ?Nat.add_0_r; try assumption.
  all: try match goal with
         | |- logged _ = _ =>
             destruct returned as [|t0|m0]; try assumption;
             destruct Hret as (r0 & -> & _); simpl in *;
             repeat match goal with
               | |- context [isPending ?p] => destruct p; simpl
               end; assumption
         end.
  all: try match goal with
         | |- rejections _ = _ => destruct runnerP; simpl; assumption
         end.
  - destruct runnerP; simpl in *; [rewrite Wr; reflexivity|discriminate|lia].
  - destruct returned; simpl; rewrite Wu; reflexivity.
  - destruct returned as [|t0|m0]; simpl; rewrite ?app_nil_r; try assumption.
    destruct Hret as (r0 & -> & _). simpl. destruct (isPending overallP); assumption.
  - destruct returned; simpl; rewrite ?app_nil_r; assumption.
Qed.

Lemma wiring_start adapt t c s0 :
  fetchSitemapTextRaced adapt t c = Races s0 -> Wiring s0.
Proof.
  unfold fetchSitemapTextRaced.
  destruct (String.eqb (trim t) EmptyString); [discriminate|].
  simpl. intros [= <-].
  split; simpl; auto; destruct (signal c) as [[[]]|]; reflexivity.
Qed.

Lemma wiring_run evs : forall s s',
  Inv s -> Wiring s -> run s evs = Some s' -> Wiring s'.
Proof.
  induction evs as [|e evs IH]; simpl; intros s s' HI HW H.
  - injection H as <-. exact HW.
  - destruct (step s e) as [s1|] eqn:E; [|discriminate].
    eapply IH; [eapply inv_step; eauto|eapply wiring_step; eauto|exact H].
Qed.

Lemma wiring_reachable adapt s : reachable adapt s -> Wiring s.
Proof.
  intros (t & c & s0 & evs & H0 & H).
  eapply wiring_run; [eapply inv_start|eapply wiring_start|]; eauto.
Qed.

Lemma timerTells_step s e s' : TimerTells s -> step s e = Some s' -> TimerTells s'.
Proof.
  intros HT H. step_cases H.
  all: normal_form.
  all: open_race s; unfold TimerTells, settleWith in *; simpl in *; subst; simpl in *.
  all: try assumption.
  - destruct HT as (-> & ->). reflexivity.
  - destruct overallTimer; simpl; try tauto.
    + destruct HT as (-> & ->). reflexivity.
    + rewrite HT. reflexivity.
    + rewrite HT. reflexivity.
Qed.

Lemma timerTells_reachable adapt s : reachable adapt s -> TimerTells s.
Proof.
  intros (t & c & s0 & evs & H0 & H).
  assert (TimerTells s0) as HS.
  { apply start_cases in H0.
    destruct H0 as (_ & _ & _ & _ & _ & _ & _ & _ & Ho & _ & _ & Hm & Ht & _).
    unfold TimerTells. rewrite Ht, Hm, Ho. auto. }
  clear H0.
  revert s0 HS H. induction evs as [|e evs IH]; simpl; intros s0 HS H.
  - injection H as <-. exact HS.
  - destruct (step s0 e) as [s1|] eqn:E; [|discriminate].
    eapply IH; [eapply timerTells_step; eauto|exact H].
Qed.

(** ** Signals, causes and winners along a run *)

Lemma step_signals s e s' :
  step s e = Some s' ->
  (raceAborted s = true -> raceAborted s' = true)
  /\ (e <> ExternalAbort -> extSignal s' = extSignal s)
  /\ (e = ExternalAbort -> extSignal s = Some false /\ extSignal s' = Some true)
  /\ (overallP s = Pending ->
      overallP s' = Pending
      \/ (e = ExternalAbort /\ overallP s' = Rejected "Cancelled"%string)
      \/ (e = OverallTimer
          /\ overallP s' = Rejected (overallTimeoutMessage (overallMs s))))
  /\ (errors s' = errors s
      \/ exists i st msg, strategies s !! i = Some st
           /\ errors s' = errors s ++ [(name st ++ ": " ++ msg)%string]).
Proof.
  intros H. step_cases H.
  all: normal_form.
  all: open_race s; simpl in *; subst.
  all: repeat split; try congruence; try discriminate; auto.
  all: try (intros ->; auto; fail).
  all: try (right; eauto; fail).
  all: try (intros _; destruct extLinked; reflexivity).
  intros ->. apply orb_true_r.
Qed.

Lemma run_signals evs : forall s s',
  run s evs = Some s' ->
  (raceAborted s = true -> raceAborted s' = true)
  /\ (~ In ExternalAbort evs -> extSignal s' = extSignal s)
  /\ (In ExternalAbort evs -> extSignal s = Some false)
  /\ (forall m, overallP s = Pending -> overallP s' = Rejected m ->
      (m = "Cancelled"%string /\ In ExternalAbort evs)
      \/ (m = overallTimeoutMessage (overallMs s) /\ In OverallTimer evs))
  /\ (exists more, errors s' = errors s ++ more
        /\ Forall (fun e => exists st msg, In st (strategies s)
                     /\ e = (name st ++ ": " ++ msg)%string) more).
Proof.
  induction evs as [|e evs IH]; simpl; intros s s' H.
  - injection H as <-. repeat split; auto; try tauto.
    + intros m -> [=].
    + exists []. rewrite app_nil_r. auto.
  - destruct (step s e) as [s1|] eqn:E; [|discriminate].
    destruct (step_signals _ _ _ E) as (A1 & A2 & A3 & A4 & A5).
    destruct (step_static _ _ _ E) as (Es & Em & _ & Eo & _).
    destruct (IH _ _ H) as (B1 & B2 & B3 & B4 & B5).
    repeat split.
    + auto.
    + intros N. rewrite B2 by tauto. apply A2. intros ->. tauto.
    + intros [->|I].
      * apply A3. reflexivity.
      * assert (e = ExternalAbort \/ e <> ExternalAbort) as [->|N]
          by (destruct e; auto; right; discriminate);
          [apply A3; reflexivity|].
        rewrite <- A2 by assumption. auto.
    + intros m P R. destruct (run_static _ _ _ H) as (_ & _ & _ & Ro & _).
      destruct (A4 P) as [P1|[[-> R1]|[-> R1]]].
      * destruct (B4 m P1 R) as [[-> I]|[-> I]]; [left; auto|right]. rewrite Em. auto.
      * rewrite Ro in R by (rewrite R1; discriminate). rewrite R1 in R.
        injection R as <-. left. auto.
      * rewrite Ro in R by (rewrite R1; discriminate). rewrite R1 in R.
        injection R as <-. right. auto.
    + destruct B5 as (more & Hm & Fm). rewrite Es in Fm.
      destruct A5 as [A5|(i & st & msg & Hs & A5)]; rewrite A5 in Hm.
      * exists more. auto.
      * exists ((name st ++ ": " ++ msg)%string :: more). rewrite <- app_assoc in Hm.
        split; [exact Hm|]. constructor; [|exact Fm].
        exists st, msg. split; [|reflexivity].
        apply list_elem_of_In. eapply list_elem_of_lookup_2. exact Hs.
Qed.

Lemma start_signal adapt t c s0 :
  fetchSitemapTextRaced adapt t c = Races s0 ->
  raceAborted s0 = match signal c with Some sig => aborted sig | None => false end
  /\ length (strategies s0) = 4.
Proof.
  unfold fetchSitemapTextRaced.
  destruct (String.eqb (trim t) EmptyString); [discriminate|].
  simpl. intros [= <-]. simpl. auto.
Qed.

Lemma runner_rejected s m :
  Inv s -> runnerP s = Rejected m ->
  m = allFailedMessage (errors s) /\ length (errors s) = length (strategies s)
  /\ done s = false.
Proof.
  intros [[_ He Hb Hr _] _ _ _] E. unfold runnerConsistent in Hr. rewrite E in Hr.
  destruct Hr as (Hd & Hl & ->). rewrite Hd in Hb. repeat split; auto. lia.
Qed.

Lemma after_reachable config evs s :
  after config evs = Some s -> reachable adapt s.
Proof.
  unfold after. intros H.
  destruct (fetchSitemapTextRaced adapt target config) as [|s0] eqn:E; [discriminate|].
  exists target, config, s0, evs. auto.
Defined.

Lemma names_start adapt t c s0 :
  fetchSitemapTextRaced adapt t c = Races s0 ->
  name <$> strategies s0 = strategyNames
  /\ forall i st raw, strategies s0 !! i = Some st ->
       finish st raw = (if String.eqb (name st) "Jina"
                        then default raw (adapt raw (trim t)) else raw).
Proof.
  intros H. apply start_cases in H. destruct H as (-> & _).
  split; [reflexivity|].
  intros i st raw. destruct i as [|[|[|[|i]]]]; simpl; try discriminate;
    intros [= <-]; reflexivity.
Qed.

Lemma attempt_text o raw :
  attempt o = Text raw ->
  exists status, o = FetchResponds {| ok := true; status := status; body := inl raw |}.
Proof.
  destruct o as [m|[k st [b|b]]]; simpl; try discriminate.
  - destruct k; [|discriminate]. intros [= <-]. eauto.
  - destruct k; discriminate.
Qed.

Lemma validOutcome_text st o r :
  validOutcome st o = Some r ->
  exists status raw,
    o = FetchResponds {| ok := true; status := status; body := inl raw |}
    /\ r = {| winner := name st; text := finish st raw |}
    /\ isLikelySitemapXml (finish st raw) = true.
Proof.
  unfold validOutcome, runOutcome, fetchTextWithTimeout.
  destruct (attempt o) as [raw|m] eqn:E.
  - destruct (isLikelySitemapXml (finish st raw)) eqn:G; [|discriminate].
    intros [= <-]. destruct (attempt_text _ _ E) as (status & ->). eauto.
  - destruct (isAbortMessage m); discriminate.
Qed.

Lemma fulfilled_winner adapt targetUrl config s0 evs s r :
  fetchSitemapTextRaced adapt targetUrl config = Races s0 ->
  run s0 evs = Some s ->
  raceP s = Fulfilled r ->
  firstValidSettle (strategies s0) evs = Some r.
Proof.
  intros Hstart Hrun Hr.
  pose proof (inv_start _ _ _ _ Hstart) as HI0.
  pose proof (inv_run _ _ _ HI0 Hrun) as [_ _ [Hor _ _ _ _] _].
  rewrite Hr in Hor.
  pose proof (run_winner _ _ _ HI0 Hrun) as W.
  destruct (winnerOf_start _ _ _ _ Hstart) as [W0 _]. rewrite W0 in W.
  unfold winnerOf in W. rewrite Hor in W. congruence.
Qed.

Lemma overall_fires s :
  Inv s -> Wiring s -> raceP s = Pending -> jobs s = [] ->
  exists s1 s2,
    step s OverallTimer = Some s1
    /\ overallTimer s1 = Fired /\ raceAborted s1 = true
    /\ raceP s1 = Rejected (overallTimeoutMessage (overallMs s))
    /\ step s1 Tick = Some s2
    /\ returned s2 = Rejected (overallTimeoutMessage (overallMs s)).
Proof.
  intros [_ _ [Hor _ _ _ Hret] _] [_ _ Wt _ _] Hr Hj.
  rewrite Hr in Hor. destruct Hor as [_ Ho]. specialize (Wt Ho).
  assert (returned s = Pending) as Hp.
  { destruct (returned s); [reflexivity| |].
    - destruct Hret as (? & ? & _). congruence.
    - congruence. }
  open_race s; simpl in *; subst.
  eexists. eexists. split; [reflexivity|].
  normal_form. simpl.
  split; [reflexivity|]. split; [reflexivity|]. split; [reflexivity|].
  split; reflexivity.
Qed.

Lemma step_abort_reason s e s' :
  step s e = Some s' ->
  (raceAborted s' = true ->
   raceAborted s = true \/ (done s = false /\ done s' = true)
   \/ e = OverallTimer \/ e = ExternalAbort)
  /\ ((done s = true -> raceAborted s = true) ->
      done s' = true -> raceAborted s' = true)
  /\ (e = OverallTimer -> raceAborted s' = true).
Proof.
  intros H. step_cases H.
  all: normal_form.
  all: open_race s; simpl in *; subst.
  all: repeat split; auto; try discriminate.
  all: try (intros _; destruct done; auto; fail).
  intros P D. rewrite (P D). apply orb_true_r.
Qed.

Lemma run_abort_reason evs : forall s s',
  run s evs = Some s' ->
  (raceAborted s' = true ->
   raceAborted s = true \/ done s' = true
   \/ In OverallTimer evs \/ In ExternalAbort evs)
  /\ ((done s = true -> raceAborted s = true) ->
      done s' = true -> raceAborted s' = true)
  /\ (In OverallTimer evs -> raceAborted s' = true).
Proof.
  induction evs as [|e evs IH]; simpl; intros s s' H.
  - injection H as <-. repeat split; auto; tauto.
  - destruct (step s e) as [s1|] eqn:E; [|discriminate].
    destruct (step_abort_reason _ _ _ E) as (A1 & A2 & A3).
    destruct (IH _ _ H) as (B1 & B2 & B3).
    destruct (run_static _ _ _ H) as (_ & _ & _ & _ & _ & _ & D).
    destruct (run_signals _ _ _ H) as (M & _).
    repeat split.
    + intros R. destruct (B1 R) as [R1|[?|[?|?]]]; auto.
      destruct (A1 R1) as [?|[[_ ?]|[?|?]]]; auto.
    + intros P. apply B2. apply A2. exact P.
    + intros [->|I]; auto.
Qed.

(** ** Strings *)

Local Arguments append : simpl nomatch.

Lemma append_assoc (a b c : string) : ((a ++ b) ++ c = a ++ (b ++ c))%string.
Proof. induction a; simpl; congruence. Qed.

Lemma takeWhile_dropWhile p s : (takeWhile p s ++ dropWhile p s)%string = s.
Proof. induction s as [|c s IH]; simpl; [reflexivity|]. destruct (p c); simpl; congruence. Qed.

Lemma takeWhile_all p s : forallb p (list_ascii_of_string (takeWhile p s)) = true.
Proof.
  induction s as [|c s IH]; simpl; [reflexivity|].
  destruct (p c) eqn:E; simpl; [rewrite E; exact IH|reflexivity].
Qed.

Lemma dropWhile_app p a b :
  forallb p (list_ascii_of_string a) = true ->
  dropWhile p (a ++ b)%string = dropWhile p b.
Proof.
  induction a as [|c a IH]; simpl; [reflexivity|].
  intros H. apply andb_true_iff in H as [-> H]. auto.
Qed.

Lemma stripPrefixCI_sound pat : forall s rest,
  stripPrefixCI pat s = Some rest ->
  exists r, s = (r ++ rest)%string /\ lower r = lower pat.
Proof.
  induction pat as [|p pat IH]; simpl; intros s rest H.
  - injection H as <-. exists EmptyString. auto.
  - destruct s as [|c s]; [discriminate|].
    destruct (Ascii.eqb (foldCase p) (foldCase c)) eqn:E; [|discriminate].
    apply Ascii.eqb_eq in E.
    destruct (IH _ _ H) as (r & -> & Hr).
    exists (String c r). simpl. split; [reflexivity|]. congruence.
Qed.

Lemma stripPrefixCI_complete pat : forall r rest,
  lower r = lower pat -> stripPrefixCI pat (r ++ rest)%string = Some rest.
Proof.
  induction pat as [|p pat IH]; simpl; intros r rest H.
  - destruct r; [reflexivity|discriminate].
  - destruct r as [|c r]; [discriminate|]. simpl in *.
    injection H as Hc Hr. rewrite Hc, Ascii.eqb_refl. auto.
Qed.

Lemma matchRootName_spec s :
  matchRootName s = true <->
  exists r rest, s = (r ++ rest)%string /\ isRootName r /\ atWordBoundary rest = true.
Proof.
  unfold matchRootName, isRootName. split.
  - intros H. apply orb_true_iff in H as [H|H].
    + destruct (stripPrefixCI "urlset" s) as [rest|] eqn:E; [|discriminate].
      destruct (stripPrefixCI_sound _ _ _ E) as (r & -> & Hr). exists r, rest. auto.
    + destruct (stripPrefixCI "sitemapindex" s) as [rest|] eqn:E; [|discriminate].
      destruct (stripPrefixCI_sound _ _ _ E) as (r & -> & Hr). exists r, rest. auto.
  - intros (r & rest & -> & [Hr|Hr] & Hb).
    + rewrite (stripPrefixCI_complete "urlset" r rest Hr), Hb. reflexivity.
    + rewrite (stripPrefixCI_complete "sitemapindex" r rest Hr), Hb. apply orb_true_r.
Qed.

Lemma matchQualifiedRoot_spec s :
  matchQualifiedRoot s = true <->
  exists q r rest, s = (q ++ r ++ rest)%string
                   /\ (q = EmptyString \/ isQualifier q)
                   /\ isRootName r /\ atWordBoundary rest = true.
Proof.
  unfold matchQualifiedRoot. split.
  - intros H. apply orb_true_iff in H as [H|H].
    + apply matchRootName_spec in H as (r & rest & -> & Hr & Hb).
      exists EmptyString, r, rest. auto.
    + destruct s as [|c s]; [discriminate|].
      destruct (isNameStart c) eqn:Hc; [|discriminate].
      destruct (dropWhile isNameChar s) as [|d s'] eqn:E; [discriminate|].
      destruct (Ascii.eqb d ":") eqn:Hd.
      * apply Ascii.eqb_eq in Hd. subst d.
        apply matchRootName_spec in H as (r & rest & -> & Hr & Hb).
        exists (String c (takeWhile isNameChar s) ++ ":")%string, r, rest.
        split.
        { simpl. f_equal. rewrite append_assoc. simpl.
          rewrite <- E. symmetry. apply takeWhile_dropWhile. }
        split; [|auto]. right. exists c, (takeWhile isNameChar s).
        split; [reflexivity|]. split; [assumption|apply takeWhile_all].
      * exfalso. apply Ascii.eqb_neq in Hd.
        destruct d as [[] [] [] [] [] [] [] []]; try discriminate H. congruence.
  - intros (q & r & rest & -> & [->|(c & nm & -> & Hc & Hn)] & Hr & Hb).
    + simpl. apply orb_true_iff. left. apply matchRootName_spec. eauto.
    + apply orb_true_iff. right. simpl. rewrite Hc.
      rewrite append_assoc. rewrite (dropWhile_app _ _ _ Hn). simpl.
      apply matchRootName_spec. eauto.
Qed.

Lemma rootName_head r :
  isRootName r -> exists c r', r = String c r' /\ isWhiteSpace c = false.
Proof.
  intros [H|H]; destruct r as [|c r']; try discriminate; simpl in H;
    injection H as Hc _; exists c, r'; (split; [reflexivity|]);
    destruct c as [[] [] [] [] [] [] [] []]; try discriminate Hc; reflexivity.
Qed.

Lemma nameStart_not_space c : isNameStart c = true -> isWhiteSpace c = false.
Proof. destruct c as [[] [] [] [] [] [] [] []]; try discriminate; reflexivity. Qed.

Lemma matchAfterLt_spec s :
  matchAfterLt s = true <->
  exists ws q r rest, s = (ws ++ q ++ r ++ rest)%string
    /\ forallb isWhiteSpace (list_ascii_of_string ws) = true
    /\ (q = EmptyString \/ isQualifier q)
    /\ isRootName r /\ atWordBoundary rest = true.
Proof.
  unfold matchAfterLt. split.
  - intros H. apply matchQualifiedRoot_spec in H as (q & r & rest & E & Hq & Hr & Hb).
    exists (takeWhile isWhiteSpace s), q, r, rest.
    split; [|split; [apply takeWhile_all|auto]].
    rewrite <- E. symmetry. apply takeWhile_dropWhile.
  - intros (ws & q & r & rest & -> & Hws & Hq & Hr & Hb).
    rewrite (dropWhile_app _ _ _ Hws).
    assert (dropWhile isWhiteSpace (q ++ r ++ rest)%string = (q ++ r ++ rest)%string) as ->.
    { destruct Hq as [->|(c & nm & -> & Hc & _)].
      - destruct (rootName_head _ Hr) as (c & r' & -> & Hc). simpl.
        rewrite Hc. reflexivity.
      - simpl. rewrite (nameStart_not_space _ Hc). reflexivity. }
    apply matchQualifiedRoot_spec. exists q, r, rest. auto.
Qed.

Lemma gate_prepend pre t :
  isLikelySitemapXml t = true -> isLikelySitemapXml (pre ++ t)%string = true.
Proof.
  intros H. induction pre as [|c pre IH]; simpl; [exact H|].
  rewrite IH. apply orb_true_r.
Qed.

Lemma isLikelySitemapXml_spec text :
  isLikelySitemapXml text = true <-> HasSitemapRoot text.
Proof.
  unfold HasSitemapRoot. split.
  - induction text as [|c text IH]; simpl; [discriminate|].
    intros H. apply orb_true_iff in H as [H|H].
    + destruct (Ascii.eqb c "<") eqn:E; [|discriminate].
      apply Ascii.eqb_eq in E. subst c.
      apply matchAfterLt_spec in H as (ws & q & r & rest & -> & H).
      exists EmptyString, ws, q, r, rest. auto.
    + destruct (IH H) as (pre & ws & q & r & rest & -> & H').
      exists (String c pre), ws, q, r, rest. auto.
  - intros (pre & ws & q & r & rest & -> & H).
    apply gate_prepend. change ("<" ++ ws ++ q ++ r ++ rest)%string
      with (String "<" (ws ++ q ++ r ++ rest)%string).
    cbn [isLikelySitemapXml]. apply orb_true_iff. left.
    apply matchAfterLt_spec. exists ws, q, r, rest. auto.
Qed.

Lemma atWordBoundary_app rest post :
  atWordBoundary rest = true -> atWordBoundary post = true ->
  atWordBoundary (rest ++ post)%string = true.
Proof. destruct rest; simpl; auto. Qed.

Lemma foldCase_idem c : foldCase (foldCase c) = foldCase c.
Proof. destruct c as [[] [] [] [] [] [] [] []]; reflexivity. Qed.

Lemma isWhiteSpace_fold c : isWhiteSpace (foldCase c) = isWhiteSpace c.
Proof. destruct c as [[] [] [] [] [] [] [] []]; reflexivity. Qed.

Lemma isNameStart_fold c : isNameStart (foldCase c) = isNameStart c.
Proof. destruct c as [[] [] [] [] [] [] [] []]; reflexivity. Qed.

Lemma isNameChar_fold c : isNameChar (foldCase c) = isNameChar c.
Proof. destruct c as [[] [] [] [] [] [] [] []]; reflexivity. Qed.

Lemma isWordChar_fold c : isWordChar (foldCase c) = isWordChar c.
Proof. destruct c as [[] [] [] [] [] [] [] []]; reflexivity. Qed.

Lemma isLt_fold c : Ascii.eqb (foldCase c) "<" = Ascii.eqb c "<".
Proof. destruct c as [[] [] [] [] [] [] [] []]; reflexivity. Qed.

Lemma dropWhile_lower p s :
  (forall c, p (foldCase c) = p c) ->
  dropWhile p (lower s) = lower (dropWhile p s).
Proof.
  intros Hp. induction s as [|c s IH]; simpl; [reflexivity|].
  rewrite Hp. destruct (p c); [exact IH|reflexivity].
Qed.

Lemma stripPrefixCI_lower pat : forall s,
  stripPrefixCI pat (lower s) = lower <$> stripPrefixCI pat s.
Proof.
  induction pat as [|p pat IH]; intros s; simpl; [reflexivity|].
  destruct s as [|c s]; simpl; [reflexivity|].
  rewrite foldCase_idem. destruct (Ascii.eqb (foldCase p) (foldCase c)); [apply IH|reflexivity].
Qed.

Lemma atWordBoundary_lower s : atWordBoundary (lower s) = atWordBoundary s.
Proof. destruct s; simpl; [reflexivity|]. rewrite isWordChar_fold. reflexivity. Qed.

Lemma matchRootName_lower s : matchRootName (lower s) = matchRootName s.
Proof.
  unfold matchRootName. rewrite !stripPrefixCI_lower.
  destruct (stripPrefixCI "urlset" s), (stripPrefixCI "sitemapindex" s); simpl;
    rewrite ?atWordBoundary_lower; reflexivity.
Qed.

Lemma matchQualifiedRoot_lower s : matchQualifiedRoot (lower s) = matchQualifiedRoot s.
Proof.
  unfold matchQualifiedRoot. rewrite matchRootName_lower. f_equal.
  destruct s as [|c s]; simpl; [reflexivity|].
  rewrite isNameStart_fold. destruct (isNameStart c); [|reflexivity].
  rewrite (dropWhile_lower _ _ isNameChar_fold).
  destruct (dropWhile isNameChar s) as [|d s']; simpl; [reflexivity|].
  destruct d as [[] [] [] [] [] [] [] []]; try reflexivity.
  apply matchRootName_lower.
Qed.

Lemma gate_lower text : isLikelySitemapXml (lower text) = isLikelySitemapXml text.
Proof.
  induction text as [|c text IH]; simpl; [reflexivity|].
  rewrite IH, isLt_fold. f_equal.
  destruct (Ascii.eqb c "<"); [|reflexivity].
  unfold matchAfterLt. rewrite (dropWhile_lower _ _ isWhiteSpace_fold).
  apply matchQualifiedRoot_lower.
Qed.

Lemma stripPrefixCI_head p pat c s rest :
  stripPrefixCI (String p pat) (String c s) = Some rest -> foldCase c = foldCase p.
Proof.
  simpl. destruct (Ascii.eqb (foldCase p) (foldCase c)) eqn:E; [|discriminate].
  apply Ascii.eqb_eq in E. congruence.
Qed.

Lemma containsCI_absent p pat s :
  forallb (fun c => negb (Ascii.eqb (foldCase c) (foldCase p))) (list_ascii_of_string s) = true ->
  containsCI (String p pat) s = false.
Proof.
  induction s as [|c s IH]; [reflexivity|].
  intros H. cbn [list_ascii_of_string forallb] in H.
  apply andb_true_iff in H as [Hc H].
  cbn [containsCI].
  destruct (stripPrefixCI (String p pat) (String c s)) eqn:E.
  - apply stripPrefixCI_head in E. rewrite E, Ascii.eqb_refl in Hc. discriminate.
  - auto.
Qed.

Lemma containsCI_skip p pat c s :
  Ascii.eqb (foldCase p) (foldCase c) = false ->
  containsCI (String p pat) (String c s) = containsCI (String p pat) s.
Proof. intros H. cbn [containsCI stripPrefixCI]. rewrite H. reflexivity. Qed.

Lemma containsCI_skip2 p q pat c d s :
  Ascii.eqb (foldCase q) (foldCase d) = false ->
  containsCI (String p (String q pat)) (String c (String d s))
  = containsCI (String p (String q pat)) (String d s).
Proof.
  intros H. cbn [containsCI stripPrefixCI]. rewrite H.
  destruct (Ascii.eqb (foldCase p) (foldCase c)); reflexivity.
Qed.

Lemma containsCI_spec pat s :
  containsCI pat s = true <->
  exists pre w post, s = (pre ++ w ++ post)%string /\ lower w = lower pat.
Proof.
  split.
  - induction s as [|c s IH]; cbn [containsCI]; intros H.
    + destruct (stripPrefixCI pat EmptyString) as [rest|] eqn:E; [|discriminate].
      destruct (stripPrefixCI_sound _ _ _ E) as (w & Hw & Hl).
      exists EmptyString, w, rest. auto.
    + destruct (stripPrefixCI pat (String c s)) as [rest|] eqn:E.
      * destruct (stripPrefixCI_sound _ _ _ E) as (w & Hw & Hl).
        exists EmptyString, w, rest. auto.
      * destruct (IH H) as (pre & w & post & -> & Hl).
        exists (String c pre), w, post. auto.
  - intros (pre & w & post & -> & Hl).
    induction pre as [|c pre IH].
    + simpl. destruct (w ++ post)%string eqn:E; cbn [containsCI];
        rewrite <- E, (stripPrefixCI_complete _ _ _ Hl); reflexivity.
    + change (String c pre ++ w ++ post)%string with (String c (pre ++ w ++ post)%string).
      cbn [containsCI]. rewrite IH.
      destruct (stripPrefixCI pat _); reflexivity.
Qed.

Lemma digits_no_a d : forallb notA (list_ascii_of_string (NilEmpty.string_of_uint d)) = true.
Proof. induction d; simpl; auto. Qed.

Lemma showZ_no_a z : forallb notA (list_ascii_of_string (showZ z)) = true.
Proof.
  unfold showZ, NilZero.string_of_int, NilZero.string_of_uint.
  destruct (Z.to_int z) as [d|d]; destruct d; try apply (digits_no_a (_ d)); try reflexivity.
  all: simpl; try apply digits_no_a.
Qed.

Lemma forallb_chars_app p a b :
  forallb p (list_ascii_of_string (a ++ b)%string)
  = forallb p (list_ascii_of_string a) && forallb p (list_ascii_of_string b).
Proof. induction a as [|c a IH]; simpl; [reflexivity|]. rewrite IH. apply andb_assoc. Qed.

Lemma http_not_abort z : isAbortMessage ("HTTP " ++ showZ z)%string = false.
Proof.
  assert (forallb notA (list_ascii_of_string ("HTTP " ++ showZ z)%string) = true) as H.
  { rewrite forallb_chars_app, showZ_no_a. reflexivity. }
  unfold isAbortMessage.
  rewrite !(containsCI_absent "a" _ _ H). reflexivity.
Qed.

Lemma timeout_not_abort ms : isAbortMessage (timeoutMessage ms) = false.
Proof.
  assert (forallb notA (list_ascii_of_string (showZ (roundSeconds ms) ++ "s")%string) = true) as H.
  { rewrite forallb_chars_app, showZ_no_a. reflexivity. }
  unfold isAbortMessage, timeoutMessage.
  set (x := (showZ (roundSeconds ms) ++ "s")%string) in *.
  change ("timeout after " ++ x)%string with
    (String "t" (String "i" (String "m" (String "e" (String "o" (String "u" (String "t"
      (String " " (String "a" (String "f" (String "t" (String "e" (String "r"
        (String " " x)))))))))))))).
  rewrite !containsCI_skip2 by reflexivity.
  rewrite !containsCI_skip by reflexivity.
  rewrite !(containsCI_absent "a" _ _ H). reflexivity.
Qed.

Lemma dropWhile_nil p s :
  dropWhile p s = EmptyString -> forallb p (list_ascii_of_string s) = true.
Proof.
  induction s as [|c s IH]; simpl; [reflexivity|].
  destruct (p c); [auto|discriminate].
Qed.

Lemma rev_app_nil a b : String.rev_app a b = EmptyString -> a = EmptyString /\ b = EmptyString.
Proof.
  revert b. induction a as [|c a IH]; simpl; intros b H; [auto|].
  apply IH in H as [_ H]. discriminate.
Qed.

Lemma trim_nil s : trim s = EmptyString -> forallb isWhiteSpace (list_ascii_of_string s) = true.
Proof.
  unfold trim, trimStart, String.rev. intros H.
  apply rev_app_nil in H as [H _].
  apply dropWhile_nil in H.
  apply dropWhile_nil.
  destruct (dropWhile isWhiteSpace s) as [|c r] eqn:E; [reflexivity|].
  exfalso.
  assert (isWhiteSpace c = false) as Hc.
  { clear H. induction s as [|d s IH]; simpl in E; [discriminate|].
    destruct (isWhiteSpace d) eqn:Hd; [auto|]. injection E as -> _. exact Hd. }
  assert (forall a b, forallb isWhiteSpace (list_ascii_of_string (String.rev_app a b)) = true ->
                      forallb isWhiteSpace (list_ascii_of_string a) = true) as R.
  { induction a as [|x a IH]; simpl; intros b Hb; [reflexivity|].
    assert (forall a b, forallb isWhiteSpace (list_ascii_of_string (String.rev_app a b)) = true ->
                        forallb isWhiteSpace (list_ascii_of_string b) = true) as R2.
    { clear. induction a as [|x a IH]; simpl; intros b Hb; [exact Hb|].
      apply IH in Hb. simpl in Hb. apply andb_true_iff in Hb. tauto. }
    pose proof (R2 _ _ Hb) as Hx. simpl in Hx. apply andb_true_iff in Hx as [-> _].
    simpl. eapply IH. exact Hb. }
  apply R in H. simpl in H. rewrite Hc in H. discriminate.
Qed.

Lemma messages_differ ms errs :
  "Cancelled"%string <> overallTimeoutMessage ms
  /\ "Cancelled"%string <> allFailedMessage errs
  /\ overallTimeoutMessage ms <> allFailedMessage errs.
Proof.
  unfold overallTimeoutMessage, allFailedMessage. simpl. repeat split; discriminate.
Qed.

Lemma rejected_cause adapt targetUrl config s0 evs s msg :
  fetchSitemapTextRaced adapt targetUrl config = Races s0 ->
  run s0 evs = Some s ->
  raceP s = Rejected msg ->
  (msg = "Cancelled"%string /\ In ExternalAbort evs
   /\ (aborted <$> signal config) = Some false)
  \/ (msg = overallTimeoutMessage (effectiveOverallTimeoutMs config)
      /\ In OverallTimer evs)
  \/ (msg = allFailedMessage (errors s) /\ length (errors s) = 4 /\ done s = false).
Proof.
  intros Hstart Hrun Hr.
  pose proof (inv_start _ _ _ _ Hstart) as HI0.
  pose proof (inv_run _ _ _ HI0 Hrun) as HI.
  destruct (start_signal _ _ _ _ Hstart) as (_ & Hlen).
  apply start_cases in Hstart.
  destruct Hstart as (Hs & Hp & Hl & Hj & He & Hd & Hc & Hrn & Ho & Ha & Hret & Hms & Ht & Hx & Hla & Hres).
  destruct (run_signals _ _ _ Hrun) as (_ & _ & S3 & S4 & _).
  destruct (run_static _ _ _ Hrun) as (Est & _).
  destruct HI as [HC HQ [Hor _ _ _ _] HL].
  rewrite Hr in Hor. destruct Hor as [R|R].
  - right. right.
    destruct (runner_rejected s msg (Build_Inv _ HC HQ (inv_outer _ (inv_run _ _ _ HI0 Hrun)) HL) R)
      as (-> & L & D).
    rewrite Est, Hlen in L. auto.
  - destruct (S4 msg Ho R) as [[-> I]|[-> I]].
    + left. rewrite <- Hx. auto.
    + right. left. rewrite Hms. auto.
Qed.

(** * What else the code guarantees *)

(** ** X1 to X3: the gate [isLikelySitemapXml] *)

(** X1: the gate accepts exactly the texts in which the pattern finds a
    match: somewhere a [<], then any white space, then optionally a
    qualifier (a name start, name characters, a colon), then [urlset] or
    [sitemapindex] in any letter case, then the end of the text or a
    character that is no word character. *)
Theorem gate_matches_the_pattern (text : string) :
  isLikelySitemapXml text = true <-> HasSitemapRoot text.
Proof. apply isLikelySitemapXml_spec. Qed.

(** X2: what stands before the root element never matters, and what stands
    after it matters only at the word boundary: a text the gate accepts is
    still accepted with any text put before it, and with any text put after
    it that is empty or starts with a character that is no word
    character. *)
Theorem gate_ignores_what_surrounds_the_root (pre t post : string) :
  isLikelySitemapXml t = true -> atWordBoundary post = true ->
  isLikelySitemapXml (pre ++ t ++ post)%string = true.
Proof.
  intros H Hp. apply isLikelySitemapXml_spec in H.
  destruct H as (p & ws & q & r & rest & -> & Hws & Hq & Hr & Hb).
  apply isLikelySitemapXml_spec.
  exists (pre ++ p)%string, ws, q, r, (rest ++ post)%string.
  split; [|auto using atWordBoundary_app].
  rewrite !append_assoc. simpl. rewrite ?append_assoc. reflexivity.
Qed.

Lemma gate_ignores_what_surrounds_the_root_witness :
  isLikelySitemapXml ("<?xml version='1.0'?>" ++ "<urlset" ++ " xmlns='x'>")%string = true.
Proof.
  apply (gate_ignores_what_surrounds_the_root "<?xml version='1.0'?>" "<urlset" " xmlns='x'>");
    reflexivity.
Defined.

(** X3: the gate ignores the case of ASCII letters everywhere in the text:
    two texts that are equal once their upper case letters are folded get
    the same verdict. *)
Theorem gate_ignores_letter_case (a b : string) :
  lower a = lower b -> isLikelySitemapXml a = isLikelySitemapXml b.
Proof. intros H. rewrite <- (gate_lower a), <- (gate_lower b), H. reflexivity. Qed.

Lemma gate_ignores_letter_case_witness :
  isLikelySitemapXml "<SiteMapIndex>" = isLikelySitemapXml "<sitemapindex>".
Proof. apply (gate_ignores_letter_case "<SiteMapIndex>" "<sitemapindex>"). reflexivity. Defined.

(** ** X4 to X6: the failures of one request *)

(** X4: the test [/aborted|abort/i] of the [catch] block is a substring
    test: a message is treated as an abort exactly when it contains the
    letters [abort], in any case, anywhere (the alternative [aborted] adds
    nothing). *)
Theorem abort_test_is_a_substring_test (msg : string) :
  isAbortMessage msg = true <->
  exists pre w post, msg = (pre ++ w ++ post)%string /\ lower w = "abort"%string.
Proof.
  unfold isAbortMessage. rewrite orb_true_iff, !containsCI_spec. split.
  - intros [(pre & w & post & -> & Hl)|H]; [|exact H].
    destruct w as [|a [|b [|o [|r [|t w]]]]]; try discriminate.
    exists pre, (String a (String b (String o (String r (String t EmptyString))))), (w ++ post)%string.
    split; [simpl; reflexivity|].
    simpl in *. injection Hl as H1 H2 H3 H4 H5 _. rewrite H1, H2, H3, H4, H5. reflexivity.
  - intros H. right. exact H.
Qed.

(** X5: a response that is not [ok] makes the request fail with
    [HTTP <status>], whatever the status, the body and the deadline: a
    status line is never taken for an abort and so never reported as a
    timeout. *)
Theorem http_errors_are_reported_verbatim (timeoutMs st : Z) (b : string + string) :
  fetchTextWithTimeout timeoutMs
    (FetchResponds {| ok := false; status := st; body := b |})
  = Failure ("HTTP " ++ showZ st)%string.
Proof.
  unfold fetchTextWithTimeout. cbn [attempt ok status].
  rewrite http_not_abort. reflexivity.
Qed.

(** X6: no failure that leaves [fetchTextWithTimeout] mentions an abort:
    the message is either the original one, which then did not match the
    test, or [timeout after Ns], which does not match it either. *)
Theorem request_failures_never_mention_abort (timeoutMs : Z) (o : FetchOutcome) (m : string) :
  fetchTextWithTimeout timeoutMs o = Failure m -> isAbortMessage m = false.
Proof.
  unfold fetchTextWithTimeout. destruct (attempt o) as [t|msg]; [discriminate|].
  destruct (isAbortMessage msg) eqn:E; intros [= <-]; [apply timeout_not_abort|exact E].
Qed.

Lemma request_failures_never_mention_abort_witness :
  isAbortMessage "timeout after 8s" = false.
Proof.
  apply (request_failures_never_mention_abort 8000 abortError "timeout after 8s").
  reflexivity.
Defined.

(** ** X7 and X8: the controller, the timer and the link of a request *)

(** X7: in every state a call can reach, a request in flight has been told
    to stop exactly when the race's signal has fired or its own deadline
    has passed; it listens to the race's signal exactly while that signal
    has not fired (a request started after the signal fired is aborted at
    once and installs no listener); and its timer is armed or has fired. *)
Theorem request_aborted_iff_signalled
    (adapt : string -> string -> option string) s j w :
  reachable adapt s -> invs s !! j = Some w -> phase w = InFlight ->
  controllerAborted w = raceAborted s || timerFired (timer w)
  /\ linked w = negb (raceAborted s)
  /\ (timer w = Fired \/ exists d, timer w = Armed d).
Proof.
  intros Hr Hj Hp. pose proof (lifecycle_reachable _ _ Hr _ _ Hj) as L.
  rewrite Hp in L. tauto.
Qed.

Lemma request_aborted_iff_signalled_witness :
  let s := stateAfter defaults (launchAll ++ [FetchSettles 0 (answers sitemap); Tick; Tick]) in
  exists w, invs s !! 1 = Some w /\ controllerAborted w = true /\ linked w = false.
Proof.
  intros s.
  exists {| phase := InFlight; timer := Armed 8000; controllerAborted := true; linked := false |}.
  split; [vm_compute; reflexivity|].
  destruct (request_aborted_iff_signalled adapt s 1
              {| phase := InFlight; timer := Armed 8000; controllerAborted := true; linked := false |})
    as (A & B & _).
  - apply (after_reachable defaults (launchAll ++ [FetchSettles 0 (answers sitemap); Tick; Tick])).
    vm_compute; reflexivity.
  - vm_compute; reflexivity.
  - reflexivity.
  - split; reflexivity.
Defined.

(** X8: once a request has settled, whatever made it settle, its [finally]
    block has run: the deadline timer is cleared unless it had fired, the
    listener on the race's signal is removed, and the deadline can no
    longer fire for it. *)
Theorem settled_request_is_cleaned_up
    (adapt : string -> string -> option string) s j w :
  reachable adapt s -> invs s !! j = Some w ->
  phase w <> Queued -> phase w <> InFlight ->
  (timer w = Cleared \/ timer w = Fired) /\ linked w = false
  /\ step s (StrategyTimer j) = None.
Proof.
  intros Hr Hj Hq Hf. pose proof (lifecycle_reachable _ _ Hr _ _ Hj) as L.
  assert ((timer w = Cleared \/ timer w = Fired) /\ linked w = false) as [Ht Hl]
    by (destruct (phase w); try congruence; exact L).
  repeat split; try assumption.
  unfold step. rewrite Hj. simpl. destruct Ht as [-> | ->]; reflexivity.
Qed.

Lemma settled_request_is_cleaned_up_witness :
  let s := stateAfter defaults (launchAll ++ [StrategyTimer 1; FetchSettles 1 abortError; Tick]) in
  exists w, invs s !! 1 = Some w /\ timer w = Fired /\ linked w = false
            /\ step s (StrategyTimer 1) = None.
Proof.
  intros s.
  exists {| phase := Threw "timeout after 8s"; timer := Fired;
            controllerAborted := true; linked := false |}.
  split; [vm_compute; reflexivity|].
  destruct (settled_request_is_cleaned_up adapt s 1
              {| phase := Threw "timeout after 8s"; timer := Fired;
                 controllerAborted := true; linked := false |})
    as (_ & B & C).
  - apply (after_reachable defaults
             (launchAll ++ [StrategyTimer 1; FetchSettles 1 abortError; Tick])).
    vm_compute; reflexivity.
  - vm_compute; reflexivity.
  - simpl; discriminate.
  - simpl; discriminate.
  - repeat split; assumption.
Defined.

(** ** X9: the synchronous part of the call *)

(** X9: a target with at least one character that is no white space never
    throws synchronously: the call builds the four strategies for the
    trimmed target, queues one launch per strategy without starting any
    request yet, arms the overall timer with the effective overall timeout
    and leaves the caller's promise pending. *)
Theorem nonblank_target_starts_the_race
    (adapt : string -> string -> option string) targetUrl config :
  forallb isWhiteSpace (list_ascii_of_string targetUrl) = false ->
  exists s0,
    fetchSitemapTextRaced adapt targetUrl config = Races s0
    /\ strategies s0 = buildStrategies adapt (trim targetUrl)
                         (effectivePerStrategyTimeoutMs config)
    /\ phases s0 = [Queued; Queued; Queued; Queued]
    /\ jobs s0 = [JLaunch 0; JLaunch 1; JLaunch 2; JLaunch 3]
    /\ launches (trace s0) = []
    /\ overallTimer s0 = Armed (effectiveOverallTimeoutMs config)
    /\ returned s0 = Pending.
Proof.
  intros Hb.
  destruct (fetchSitemapTextRaced adapt targetUrl config) as [before msg|s0] eqn:E.
  - exfalso. revert E. unfold fetchSitemapTextRaced.
    destruct (String.eqb (trim targetUrl) EmptyString) eqn:Et.
    + apply String.eqb_eq in Et. apply trim_nil in Et. congruence.
    + simpl. discriminate.
  - exists s0. split; [reflexivity|]. apply start_cases in E. tauto.
Qed.

Lemma nonblank_target_starts_the_race_witness :
  exists s0, fetchSitemapTextRaced adapt " example.com " defaults = Races s0
             /\ jobs s0 = [JLaunch 0; JLaunch 1; JLaunch 2; JLaunch 3].
Proof.
  destruct (nonblank_target_starts_the_race adapt " example.com " defaults)
    as (s0 & E & _ & _ & J & _).
  - reflexivity.
  - exists s0. split; assumption.
Defined.

(** ** X10 and X11: the caller's signal *)

(** X10: when the caller's signal has already fired as the call starts,
    the race's signal is fired from the start and stays so, every request
    is aborted as soon as it is started and installs no listener, the
    signal cannot fire again, and the call never rejects with
    "Cancelled". *)
Theorem fired_signal_aborts_every_request
    (adapt : string -> string -> option string) targetUrl config s0 evs s :
  signal config = Some {| aborted := true |} ->
  fetchSitemapTextRaced adapt targetUrl config = Races s0 ->
  run s0 evs = Some s ->
  raceAborted s = true
  /\ (forall j w, invs s !! j = Some w -> phase w = InFlight ->
        controllerAborted w = true /\ linked w = false)
  /\ ~ In ExternalAbort evs
  /\ step s ExternalAbort = None
  /\ raceP s <> Rejected "Cancelled"
  /\ returned s <> Rejected "Cancelled".
Proof.
  intros Hsig Hstart Hrun.
  destruct (start_signal _ _ _ _ Hstart) as (Ha & _). rewrite Hsig in Ha. simpl in Ha.
  destruct (run_signals _ _ _ Hrun) as (S1 & S2 & S3 & _).
  assert (extSignal s0 = Some true) as Hx.
  { apply start_cases in Hstart.
    destruct Hstart as (_ & _ & _ & _ & _ & _ & _ & _ & _ & _ & _ & _ & _ & Hx & _).
    rewrite Hx, Hsig. reflexivity. }
  assert (~ In ExternalAbort evs) as Hno.
  { intros I. rewrite (S3 I) in Hx. discriminate. }
  assert (raceP s <> Rejected "Cancelled") as Hnc.
  { intros R. destruct (rejected_cause _ _ _ _ _ _ _ Hstart Hrun R) as [(_ & I & _)|[(E & _)|(E & _)]].
    - tauto.
    - destruct (messages_differ (effectiveOverallTimeoutMs config) []) as (D & _). congruence.
    - destruct (messages_differ 0 (errors s)) as (_ & D & _). congruence. }
  assert (reachable adapt s) as Hreach by (exists targetUrl, config, s0, evs; auto).
  pose proof (S1 Ha) as Hra.
  split; [exact Hra|]. split; [|split; [exact Hno|split; [|split; [exact Hnc|]]]].
  - intros j w Hj Hp. pose proof (lifecycle_reachable _ _ Hreach _ _ Hj) as L.
    rewrite Hp, Hra in L. simpl in L. tauto.
  - unfold step. rewrite (S2 Hno), Hx. reflexivity.
  - intros R. apply Hnc.
    pose proof (inv_reachable _ _ Hreach) as [_ _ [_ _ _ _ Hret] _].
    rewrite R in Hret. exact Hret.
Qed.

Lemma fired_signal_aborts_every_request_witness :
  let s := stateAfter fired launchAll in
  raceAborted s = true /\ step s ExternalAbort = None.
Proof.
  intros s.
  destruct (fired_signal_aborts_every_request adapt target fired
              (stateAfter fired []) launchAll s)
    as (A & _ & _ & B & _).
  - reflexivity.
  - vm_compute; reflexivity.
  - vm_compute; reflexivity.
  - split; assumption.
Defined.

(** X11: the link from the caller's signal to the race's signal exists
    exactly while a signal was supplied, has not fired, and the call has
    not returned; [unlinkExternal] has been called once when the call has
    returned and not before.  If the signal fires while the call is pending, the
    race's signal fires and every request in flight is aborted; if it fires
    after the call has returned, the race's signal and the requests are
    left alone. *)
Theorem external_link_follows_the_call
    (adapt : string -> string -> option string) s :
  reachable adapt s ->
  extLinked s = match extSignal s, returned s with
                | Some false, Pending => true
                | _, _ => false
                end
  /\ unlinks (trace s) = (if isPending (returned s) then 0 else 1)
  /\ (extSignal s = Some false ->
      exists s', step s ExternalAbort = Some s'
        /\ extLinked s' = false
        /\ (returned s = Pending ->
            raceAborted s' = true
            /\ forall j w, invs s' !! j = Some w -> phase w = InFlight ->
                 controllerAborted w = true)
        /\ (returned s <> Pending ->
            raceAborted s' = raceAborted s /\ invs s' = invs s
            /\ returned s' = returned s)).
Proof.
  intros Hreach.
  pose proof (wiring_reachable _ _ Hreach) as [Wl Wu _ _ _].
  split; [exact Wl|]. split; [exact Wu|].
  intros Hx.
  destruct (step s ExternalAbort) as [s'|] eqn:E;
    [|unfold step in E; rewrite Hx in E; discriminate].
  exists s'. split; [reflexivity|].
  assert (reachable adapt s') as Hreach'.
  { destruct Hreach as (t & c & s0 & evs & H0 & H).
    exists t, c, s0, (evs ++ [ExternalAbort]). split; [exact H0|].
    rewrite run_app, H. cbn [run]. rewrite E. reflexivity. }
  pose proof (lifecycle_reachable _ _ Hreach') as L.
  pose proof (step_static _ _ _ E) as (_ & _ & _ & _ & _ & Hret & _).
  revert E L. unfold step. rewrite Hx. intros [= <-]. revert Wl. rewrite Hx.
  normal_form. open_race s; simpl in *. intros -> L.
  split; [reflexivity|]. split.
  - intros ->. simpl in *. split; [reflexivity|].
    intros j w Hj Hp. pose proof (L _ _ Hj) as Lj. rewrite Hp in Lj. simpl in Lj. tauto.
  - intros Hn. destruct returned; [congruence| |]; simpl; auto.
Qed.

Lemma external_link_follows_the_call_witness :
  let s := stateAfter cancellable launchAll in
  extLinked s = true /\ unlinks (trace s) = 0.
Proof.
  intros s.
  destruct (external_link_follows_the_call adapt s) as (A & B & _).
  - apply (after_reachable cancellable launchAll). vm_compute; reflexivity.
  - split; [rewrite A|rewrite B]; vm_compute; reflexivity.
Defined.

(** ** X12 to X14: the overall timeout *)

(** X12: when the overall timer fires (its callback runs when no job is
    queued) while the race is undecided, it fires
    the race's signal, which aborts every request in flight, and rejects
    the race with "All strategies timed out after Ns", N being the
    effective overall timeout in seconds; the next job hands this error to
    the caller, and nothing that happens later changes it. *)
Theorem overall_timeout_rejects
    (adapt : string -> string -> option string) targetUrl config s0 evs s :
  fetchSitemapTextRaced adapt targetUrl config = Races s0 ->
  run s0 evs = Some s ->
  raceP s = Pending -> jobs s = [] ->
  let msg := overallTimeoutMessage (effectiveOverallTimeoutMs config) in
  exists s1,
    step s OverallTimer = Some s1
    /\ overallTimer s1 = Fired
    /\ raceAborted s1 = true
    /\ (forall j w, invs s1 !! j = Some w -> phase w = InFlight ->
          controllerAborted w = true /\ linked w = false)
    /\ raceP s1 = Rejected msg
    /\ exists s2,
         step s1 Tick = Some s2 /\ returned s2 = Rejected msg
         /\ forall more s3, run s2 more = Some s3 -> returned s3 = Rejected msg.
Proof.
  intros Hstart Hrun Hr Hj msg.
  assert (reachable adapt s) as Hreach by (exists targetUrl, config, s0, evs; auto).
  assert (overallMs s = effectiveOverallTimeoutMs config) as Hms.
  { destruct (run_static _ _ _ Hrun) as (_ & -> & _).
    apply start_cases in Hstart. tauto. }
  destruct (overall_fires s (inv_reachable _ _ Hreach) (wiring_reachable _ _ Hreach) Hr Hj)
    as (s1 & s2 & E1 & Ht & Ha & Hr1 & E2 & Hret).
  rewrite Hms in *. fold msg in Hr1, Hret.
  assert (reachable adapt s1) as Hreach1.
  { exists targetUrl, config, s0, (evs ++ [OverallTimer]). split; [exact Hstart|].
    rewrite run_app, Hrun. cbn [run]. rewrite E1. reflexivity. }
  exists s1. split; [exact E1|]. split; [exact Ht|]. split; [exact Ha|]. split.
  { intros j w Hj' Hp. pose proof (lifecycle_reachable _ _ Hreach1 _ _ Hj') as L.
    rewrite Hp, Ha in L. simpl in L. tauto. }
  split; [exact Hr1|].
  exists s2. split; [exact E2|]. split; [exact Hret|].
  intros more s3 Hm. destruct (run_static _ _ _ Hm) as (_ & _ & _ & _ & _ & St & _).
  rewrite St; [assumption|]. rewrite Hret. discriminate.
Qed.

Lemma overall_timeout_rejects_witness :
  exists s1, step (stateAfter defaults launchAll) OverallTimer = Some s1
             /\ raceP s1 = Rejected "All strategies timed out after 15s".
Proof.
  destruct (overall_timeout_rejects adapt target defaults
              (stateAfter defaults []) launchAll (stateAfter defaults launchAll))
    as (s1 & E & _ & _ & _ & R & _).
  - vm_compute; reflexivity.
  - vm_compute; reflexivity.
  - vm_compute; reflexivity.
  - vm_compute; reflexivity.
  - exists s1. split; [exact E|exact R].
Defined.

(** X13: the state of the overall timer tells how [overallTimeout] stands:
    while the timer is armed, it is armed with [overallTimeoutMs] and the
    promise is pending; once it has fired, the promise is rejected with
    the timeout error and the timer cannot fire again; once it is cleared,
    the promise is rejected with "Cancelled", the caller's signal has
    fired, and neither the timer nor the signal can fire. *)
Theorem overall_timer_tells_the_outcome
    (adapt : string -> string -> option string) s :
  reachable adapt s ->
  match overallTimer s with
  | Unset => False
  | Armed d => d = overallMs s /\ overallP s = Pending
  | Fired =>
      overallP s = Rejected (overallTimeoutMessage (overallMs s))
      /\ step s OverallTimer = None
  | Cleared =>
      overallP s = Rejected "Cancelled" /\ extSignal s = Some true
      /\ step s OverallTimer = None /\ step s ExternalAbort = None
  end.
Proof.
  intros Hreach. pose proof (timerTells_reachable _ _ Hreach) as HT.
  unfold TimerTells in HT.
  destruct (overallTimer s) eqn:Et; try assumption.
  - split; [assumption|]. unfold step. rewrite Et. reflexivity.
  - destruct Hreach as (t & c & s0 & evs & H0 & H).
    destruct (run_signals _ _ _ H) as (_ & S2 & S3 & S4 & _).
    assert (overallP s0 = Pending) as Hp by (apply start_cases in H0; tauto).
    destruct (S4 _ Hp HT) as [[_ I]|[E _]];
      [|destruct (messages_differ (overallMs s0) []) as (D & _); congruence].
    assert (extSignal s = Some true) as Hx.
    { clear - H I. revert s0 H I. induction evs as [|e evs IH]; simpl; intros s0 H I; [tauto|].
      destruct (step s0 e) as [s1|] eqn:E; [|discriminate].
      assert (In ExternalAbort evs \/ ~ In ExternalAbort evs) as [J|J].
      { clear. induction evs as [|[] evs IH]; simpl; try tauto.
        all: destruct IH; [left; auto|right; intros [|]; [discriminate|tauto]]. }
      - eauto.
      - destruct I as [->|I]; [|tauto].
        destruct (run_signals _ _ _ H) as (_ & S2 & _). rewrite (S2 J).
        destruct (step_signals _ _ _ E) as (_ & _ & A3 & _). apply A3. reflexivity. }
    repeat split; try assumption; unfold step; rewrite ?Et, ?Hx; reflexivity.
Qed.

Lemma overall_timer_tells_the_outcome_witness :
  let s := stateAfter cancellable (launchAll ++ [ExternalAbort]) in
  match overallTimer s with
  | Unset => False
  | Armed d => d = overallMs s /\ overallP s = Pending
  | Fired =>
      overallP s = Rejected (overallTimeoutMessage (overallMs s))
      /\ step s OverallTimer = None
  | Cleared =>
      overallP s = Rejected "Cancelled" /\ extSignal s = Some true
      /\ step s OverallTimer = None /\ step s ExternalAbort = None
  end.
Proof.
  intros s. apply (overall_timer_tells_the_outcome adapt s).
  apply (after_reachable cancellable (launchAll ++ [ExternalAbort])).
  vm_compute; reflexivity.
Defined.

(** X14: a call cannot stay pending for ever, even if no request is ever
    answered: from every state a call can reach, the queued jobs run dry
    after finitely many steps, and then either the call has returned or
    the overall timer can fire, after which one more job rejects the
    caller's promise with the overall timeout error. *)
Theorem call_always_settles
    (adapt : string -> string -> option string) targetUrl config s0 evs s :
  fetchSitemapTextRaced adapt targetUrl config = Races s0 ->
  run s0 evs = Some s ->
  exists k s1,
    run s (repeat Tick k) = Some s1 /\ jobs s1 = []
    /\ (returned s1 <> Pending
        \/ exists s2,
             run s1 [OverallTimer; Tick] = Some s2
             /\ returned s2 =
                Rejected (overallTimeoutMessage (effectiveOverallTimeoutMs config))).
Proof.
  intros Hstart Hrun.
  pose proof (inv_run _ _ _ (inv_start _ _ _ _ Hstart) Hrun) as HI.
  destruct (drain_run s HI) as (k & s1 & Hk & Hj & HI1).
  exists k, s1. split; [exact Hk|]. split; [exact Hj|].
  pose proof (drained_returned s1 HI1 Hj) as D.
  destruct (raceP s1) eqn:Hr.
  - right.
    assert (run s0 (evs ++ repeat Tick k) = Some s1) as Hboth
      by (rewrite run_app, Hrun; exact Hk).
    pose proof (wiring_run _ _ _ (inv_start _ _ _ _ Hstart)
                  (wiring_start _ _ _ _ Hstart) Hboth) as HW.
    destruct (overall_fires s1 HI1 HW Hr Hj) as (s2 & s3 & E1 & _ & _ & _ & E2 & Hret).
    exists s3. cbn [run]. rewrite E1, E2. split; [reflexivity|].
    rewrite Hret. do 2 f_equal.
    destruct (run_static _ _ _ Hboth) as (_ & -> & _).
    apply start_cases in Hstart. tauto.
  - left. rewrite D. discriminate.
  - left. rewrite D. discriminate.
Qed.

Lemma call_always_settles_witness :
  exists k s1,
    run (stateAfter defaults launchAll) (repeat Tick k) = Some s1 /\ jobs s1 = [].
Proof.
  destruct (call_always_settles adapt target defaults
              (stateAfter defaults []) launchAll (stateAfter defaults launchAll))
    as (k & s1 & Hk & Hj & _).
  - vm_compute; reflexivity.
  - vm_compute; reflexivity.
  - exists k, s1. split; assumption.
Defined.

(** ** X15 and X16: what a successful call returns and logs *)



(** X16: the line "[Sitemap] <name> succeeded first" is written exactly
    once by a call that resolves, with the name of the strategy whose text
    is returned, which is one of the four names; a call that is pending or
    has rejected has written nothing. *)
Theorem success_is_logged_once
    (adapt : string -> string -> option string) targetUrl config s0 evs s :
  fetchSitemapTextRaced adapt targetUrl config = Races s0 ->
  run s0 evs = Some s ->
  match returned s with
  | Fulfilled t =>
      exists r, raceP s = Fulfilled r /\ text r = t
        /\ In (winner r) strategyNames
        /\ logged (trace s) = [("[Sitemap] " ++ winner r ++ " succeeded first")%string]
  | _ => logged (trace s) = []
  end.
Proof.
  intros Hstart Hrun.
  pose proof (inv_start _ _ _ _ Hstart) as HI0.
  pose proof (inv_run _ _ _ HI0 Hrun) as [_ _ [_ _ _ _ Hr] _].
  pose proof (wiring_run _ _ _ HI0 (wiring_start _ _ _ _ Hstart) Hrun) as [_ _ _ Wg _].
  destruct (returned s) as [|t|m]; try exact Wg.
  destruct Hr as (r & Hr & ->). rewrite Hr in Wg.
  exists r. repeat split; try assumption.
  pose proof (fulfilled_winner _ _ _ _ _ _ _ Hstart Hrun Hr) as Hf.
  destruct (firstValidSettle_In _ _ _ Hf) as (i & o & st & Hin & Hs & Hv).
  destruct (validOutcome_text _ _ _ Hv) as (status & raw & -> & -> & Hg).
  destruct (names_start _ _ _ _ Hstart) as (Hn & _). cbn [winner].
  rewrite <- Hn. apply list_elem_of_In, list_elem_of_fmap_2.
  eapply list_elem_of_lookup_2. exact Hs.
Qed.

Lemma success_is_logged_once_witness :
  let evs := launchAll ++ [FetchSettles 2 (answers sitemap)] ++ repeat Tick 2 in
  match returned (stateAfter defaults evs) with
  | Fulfilled t =>
      exists r, raceP (stateAfter defaults evs) = Fulfilled r /\ text r = t
        /\ In (winner r) strategyNames
        /\ logged (trace (stateAfter defaults evs))
           = [("[Sitemap] " ++ winner r ++ " succeeded first")%string]
  | _ => logged (trace (stateAfter defaults evs)) = []
  end.
Proof.
  intros evs.
  apply (success_is_logged_once adapt target defaults (stateAfter defaults []) evs).
  - vm_compute; reflexivity.
  - vm_compute; reflexivity.
Defined.

(** ** X17 to X19: failures and rejections *)

(** X17: [completed] always equals the number of recorded errors; there
    are at most four of them, and at most three once a winner is declared;
    every entry is [name: message] for one of the four names; and entries
    are only ever added at the end. *)
Theorem errors_count_failures
    (adapt : string -> string -> option string) targetUrl config s0 evs s :
  fetchSitemapTextRaced adapt targetUrl config = Races s0 ->
  run s0 evs = Some s ->
  completed s = length (errors s)
  /\ length (errors s) + (if done s then 1 else 0) <= 4
  /\ Forall (fun e => exists n msg, In n strategyNames
                        /\ e = (n ++ ": " ++ msg)%string) (errors s)
  /\ forall more s', run s more = Some s' ->
       exists added, errors s' = errors s ++ added.
Proof.
  intros Hstart Hrun.
  pose proof (inv_run _ _ _ (inv_start _ _ _ _ Hstart) Hrun) as [[_ He Hb _ _] _ _ _].
  destruct (start_signal _ _ _ _ Hstart) as (_ & Hlen).
  destruct (run_static _ _ _ Hrun) as (Est & _).
  destruct (names_start _ _ _ _ Hstart) as (Hn & _).
  destruct (run_signals _ _ _ Hrun) as (_ & _ & _ & _ & (all & Hall & Fall)).
  assert (errors s0 = []) as H0 by (apply start_cases in Hstart; tauto).
  rewrite H0 in Hall. simpl in Hall.
  split; [exact He|]. split; [rewrite Est, Hlen, He in Hb; lia|]. split.
  - rewrite Hall. eapply Forall_impl; [exact Fall|].
    intros e (st & msg & Hin & ->). exists (name st), msg. split; [|reflexivity].
    rewrite <- Hn. apply list_elem_of_In, list_elem_of_fmap_2, list_elem_of_In. exact Hin.
  - intros more s' Hm.
    destruct (run_signals _ _ _ Hm) as (_ & _ & _ & _ & (added & Ha & _)). eauto.
Qed.

Lemma errors_count_failures_witness :
  let evs := launchAll ++ [FetchSettles 1 (fails "HTTP 403"); Tick; Tick] in
  completed (stateAfter defaults evs) = length (errors (stateAfter defaults evs))
  /\ errors (stateAfter defaults evs) = ["Direct: HTTP 403"%string].
Proof.
  intros evs.
  destruct (errors_count_failures adapt target defaults
              (stateAfter defaults []) evs (stateAfter defaults evs)) as (A & _).
  - vm_compute; reflexivity.
  - vm_compute; reflexivity.
  - split; [exact A|vm_compute; reflexivity].
Defined.

(** X18: [resolve] and [reject] of [runner] are called at most once
    between them.  While [runner()] is pending neither was called, no
    winner is declared and fewer failures than strategies are counted;
    when it is fulfilled [resolve] was called once and [reject] never;
    when it is rejected [reject] was called once, [resolve] never, and
    the message is the aggregated one with one entry per strategy. *)
Theorem runner_settles_once (adapt : string -> string -> option string) s :
  reachable adapt s ->
  match runnerP s with
  | Pending =>
      resolves (trace s) = 0 /\ rejections (trace s) = []
      /\ done s = false /\ completed s < length (strategies s)
  | Fulfilled r =>
      resolves (trace s) = 1 /\ rejections (trace s) = [] /\ done s = true
  | Rejected m =>
      resolves (trace s) = 0 /\ rejections (trace s) = [m] /\ done s = false
      /\ m = allFailedMessage (errors s)
      /\ length (errors s) = length (strategies s)
  end.
Proof.
  intros Hreach.
  pose proof (inv_reachable _ _ Hreach) as HI.
  pose proof (wiring_reachable _ _ Hreach) as [_ _ _ _ Wr].
  pose proof HI as [[_ He Hb Hr Hres] _ _ _].
  unfold runnerConsistent in Hr.
  destruct (runnerP s) as [|r|m] eqn:E.
  - destruct Hr as (Hd & Hc). rewrite Hd in Hres. auto.
  - rewrite Hr in Hres. auto.
  - destruct (runner_rejected s m HI E) as (Hm & Hl & Hd).
    rewrite Hd in Hres. auto.
Qed.

Lemma runner_settles_once_witness :
  let s := stateAfter defaults
             (launchAll ++ [FetchSettles 0 (answers sitemap); Tick]) in
  match runnerP s with
  | Pending =>
      resolves (trace s) = 0 /\ rejections (trace s) = []
      /\ done s = false /\ completed s < length (strategies s)
  | Fulfilled r =>
      resolves (trace s) = 1 /\ rejections (trace s) = [] /\ done s = true
  | Rejected m =>
      resolves (trace s) = 0 /\ rejections (trace s) = [m] /\ done s = false
      /\ m = allFailedMessage (errors s)
      /\ length (errors s) = length (strategies s)
  end.
Proof.
  intros s. apply (runner_settles_once adapt s).
  apply (after_reachable defaults (launchAll ++ [FetchSettles 0 (answers sitemap); Tick])).
  vm_compute; reflexivity.
Defined.

(** X19: a call rejects for one of three reasons only, and the message
    tells which: "Cancelled", and then the caller's signal, live at the
    start, fired during the race; the overall timeout error, and then the
    overall timer fired; or the aggregated error, and then no winner was
    declared and all four strategies are listed.  The three messages are
    never equal. *)
Theorem rejections_name_their_cause
    (adapt : string -> string -> option string) targetUrl config s0 evs s msg :
  fetchSitemapTextRaced adapt targetUrl config = Races s0 ->
  run s0 evs = Some s ->
  returned s = Rejected msg ->
  ((msg = "Cancelled"%string /\ In ExternalAbort evs
    /\ signal config = Some {| aborted := false |})
   \/ (msg = overallTimeoutMessage (effectiveOverallTimeoutMs config)
       /\ In OverallTimer evs)
   \/ (msg = allFailedMessage (errors s) /\ length (errors s) = 4
       /\ done s = false))
  /\ (forall ms errs,
        "Cancelled"%string <> overallTimeoutMessage ms
        /\ "Cancelled"%string <> allFailedMessage errs
        /\ overallTimeoutMessage ms <> allFailedMessage errs).
Proof.
  intros Hstart Hrun Hret. split; [|apply messages_differ].
  pose proof (inv_run _ _ _ (inv_start _ _ _ _ Hstart) Hrun) as [_ _ [_ _ _ _ Hr] _].
  rewrite Hret in Hr.
  destruct (rejected_cause _ _ _ _ _ _ _ Hstart Hrun Hr) as [(E & I & X)|[H|H]]; auto.
  left. repeat split; auto.
  destruct (signal config) as [[[]]|]; simpl in X; try discriminate. reflexivity.
Qed.

Lemma rejections_name_their_cause_witness :
  let evs := launchAll ++ [ExternalAbort; Tick] in
  returned (stateAfter cancellable evs) = Rejected "Cancelled"
  /\ In ExternalAbort evs.
Proof.
  intros evs. split; [vm_compute; reflexivity|].
  destruct (rejections_name_their_cause adapt target cancellable
              (stateAfter cancellable []) evs (stateAfter cancellable evs)
              "Cancelled") as ([(_ & I & _)|[(E & _)|(E & _)]] & _).
  - vm_compute; reflexivity.
  - vm_compute; reflexivity.
  - vm_compute; reflexivity.
  - exact I.
  - vm_compute in E. discriminate E.
  - vm_compute in E. discriminate E.
Defined.

(** ** X20: the race's signal *)

(** X20: the race's signal fires only for a reason: a winner has been
    declared, the overall timer has fired, the caller's signal has fired,
    or the caller's signal had fired before the call.  A strategy that
    fails never cancels the others.  Conversely the signal has fired
    whenever a winner is declared, and whenever the overall timer has
    fired. *)
Theorem race_signal_fires_for_a_reason
    (adapt : string -> string -> option string) targetUrl config s0 evs s :
  fetchSitemapTextRaced adapt targetUrl config = Races s0 ->
  run s0 evs = Some s ->
  (raceAborted s = true ->
   done s = true \/ In OverallTimer evs \/ In ExternalAbort evs
   \/ signal config = Some {| aborted := true |})
  /\ (done s = true -> raceAborted s = true)
  /\ (In OverallTimer evs -> raceAborted s = true).
Proof.
  intros Hstart Hrun.
  destruct (run_abort_reason _ _ _ Hrun) as (B1 & B2 & B3).
  destruct (start_signal _ _ _ _ Hstart) as (Ha & _).
  assert (done s0 = false) as Hd by (apply start_cases in Hstart; tauto).
  repeat split.
  - intros R. destruct (B1 R) as [R0|[?|[?|?]]]; auto.
    right. right. right. rewrite Ha in R0.
    destruct (signal config) as [[[]]|]; try discriminate. reflexivity.
  - apply B2. rewrite Hd. discriminate.
  - exact B3.
Qed.

Lemma race_signal_fires_for_a_reason_witness :
  let evs := launchAll ++ [FetchSettles 0 (answers sitemap); Tick] in
  raceAborted (stateAfter defaults evs) = true.
Proof.
  intros evs.
  destruct (race_signal_fires_for_a_reason adapt target defaults
              (stateAfter defaults []) evs (stateAfter defaults evs)) as (_ & B & _).
  - vm_compute; reflexivity.
  - vm_compute; reflexivity.
  - apply B. vm_compute; reflexivity.
Defined.
